(** * dataviva tree_map.js: enrichment pipeline and depth selector

    A shallow embedding of [dataviva/static/js/modules/tree_map.js] and
    the properties of its data pipeline.

    JavaScript objects that the script uses as dictionaries are finite
    maps from property names to values, and arrays are lists. Only own
    properties are modelled: a code or a header that names a member
    inherited from [Object.prototype] ([constructor], [toString],
    [__proto__], ...) is outside the model.

    The script is given twice: threading its arrays and objects as
    values (module [Pure]), which is what the statements about results
    are about, and over a store of object cells (module [Store]), which
    is what the statements about unchanged arguments are about. The two
    are shown to compute the same results. *)

From stdpp Require Import base strings list gmap sets.
From Stdlib Require Import ZArith Lia Ascii.

Local Open Scope string_scope.
Local Open Scope list_scope.
#[local] Set Warnings "-clear-no-such-hyp".

(** ** JavaScript values *)

(** The values that reach the script: the JSON payloads of the three
    responses plus [undefined].  A number is carried in the form in
    which JavaScript prints it, since the script never computes with
    numbers: it only copies them or uses them as property keys. *)
#[warnings="-register-all"]
Inductive value : Type :=
  | VUndefined
  | VNull
  | VBool (b : bool)
  | VNum (printed : string)
  | VStr (s : string)
  | VArr (elems : list value)
  | VObj (props : gmap string value).

(** [Array.prototype.join(",")] on strings already converted. *)
Fixpoint join_comma (parts : list string) : string :=
  match parts with
  | [] => ""
  | [p] => p
  | p :: rest => p +:+ "," +:+ join_comma rest
  end.

(** ToString, as used by property-key conversion and by [+] with a
    string operand.  An array prints its elements separated by commas,
    with [null] and [undefined] elements printed as nothing. *)
Fixpoint to_string (v : value) : string :=
  match v with
  | VUndefined => "undefined"
  | VNull => "null"
  | VBool true => "true"
  | VBool false => "false"
  | VNum printed => printed
  | VStr s => s
  | VArr elems =>
      join_comma
        (map (fun e => match e with
                       | VUndefined | VNull => ""
                       | _ => to_string e
                       end) elems)
  | VObj _ => "[object Object]"
  end.

(** [Array.prototype.indexOf] on an array of strings: the first index
    holding [x], or [-1]. *)
Fixpoint indexOf (l : list string) (x : string) : Z :=
  match l with
  | [] => (-1)%Z
  | y :: rest =>
      if decide (y = x) then 0%Z
      else let r := indexOf rest x in
           if decide (r = -1)%Z then (-1)%Z else (r + 1)%Z
  end.

(** [arr[i]] for an integer [i]: [undefined] outside the array. *)
Definition array_get (arr : list value) (i : Z) : value :=
  if decide (i < 0)%Z then VUndefined
  else default VUndefined (arr !! Z.to_nat i).

(** [Array.prototype.splice(start, deleteCount, ...items)]: a negative
    [start] counts from the end, and both arguments are clamped to the
    array. The array after the call is returned. *)
Definition splice {A} (arr : list A) (start deleteCount : Z) (items : list A)
  : list A :=
  let len := Z.of_nat (length arr) in
  let actualStart :=
    if decide (start < 0)%Z then Z.max (len + start) 0 else Z.min start len in
  let actualDelete := Z.min (Z.max deleteCount 0) (len - actualStart) in
  take (Z.to_nat actualStart) arr ++ items
    ++ drop (Z.to_nat (actualStart + actualDelete)) arr.

(** [obj[key]] on an object used as a dictionary. *)
Definition prop (obj : gmap string value) (key : string) : value :=
  default VUndefined (obj !! key).

(** [table[code]]: the code is converted to a property key first. *)
Definition table_get (table : gmap string value) (code : value) : value :=
  prop table (to_string code).

(** [entry['name_' + lang]]. Reading a property of [undefined] or [null]
    throws a TypeError ([None]). A key starting with [name_] is neither
    an index, nor [length], nor a built-in member, so on a string, an
    array, a number or a boolean the read gives [undefined]. *)
Definition name_field (lang : string) (entry : value) : option value :=
  match entry with
  | VUndefined | VNull => None
  | VObj props => Some (prop props ("name_" +:+ lang))
  | _ => Some VUndefined
  end.

(** ** Page attributes and derived globals (lines 1-15) *)

(** The attributes read from the [#tree_map] element and the document
    language. [depths] is the [depths] attribute already split at [+]. *)
Record page := Page {
  lang : string;
  squares : string;
  group : string;
  depths : list string;
  dataset : string;
  filters : string
}.

Definition api : string := "http://api.staging.dataviva.info/".

Definition urls (pg : page) : list string :=
  [ api +:+ "metadata/" +:+ squares pg;
    api +:+ "metadata/"
        +:+ (if decide (group pg = "section") then "product_section"
             else group pg);
    api +:+ dataset pg +:+ "/year/" +:+ squares pg +:+ "/" +:+ group pg
        +:+ "?" +:+ filters pg ].

(** The localisation table is a global of the site; the script adds two
    entries to it. *)
Definition set_labels (pg : page) (dictionary : gmap string string)
  : gmap string string :=
  <["municipality" :=
      if decide (lang pg = "en") then "Municipality" else "Municipio"]>
    (<["state" := if decide (lang pg = "en") then "State" else "Estado"]>
       dictionary).

(** [dictionary[key]]. *)
Definition dict_get (dictionary : gmap string string) (key : string) : value :=
  match dictionary !! key with
  | Some label => VStr label
  | None => VUndefined
  end.

(** The third response: a header list and positional rows. *)
Record table := Table {
  headers : list string;
  data : list (list value)
}.

(** Line 41: the icon path for a group code. *)
Definition icon_path (pg : page) (code : value) : string :=
  "/static/img/icons/" +:+ group pg +:+ "/section_" +:+ to_string code
    +:+ ".png".

(** Line 58: [{[dictionary[item]] : item}]. *)
Definition labelled (dictionary : gmap string string) (item : value) : value :=
  VObj {[ to_string (dict_get dictionary (to_string item)) := item ]}.

(** [Array.prototype.indexOf] for a string in an array of values, with
    strict equality. *)
Fixpoint indexOf_value (arr : list value) (x : string) : Z :=
  match arr with
  | [] => (-1)%Z
  | y :: rest =>
      if (match y with VStr s => bool_decide (s = x) | _ => false end)
      then 0%Z
      else let r := indexOf_value rest x in
           if decide (r = -1)%Z then (-1)%Z else (r + 1)%Z
  end.


(** ** The script, threading its arrays and objects as values *)

Module Pure.

(** *** buildData (lines 17-49) *)

Definition getAttrByName (hdrs : list string) (item : list value)
    (attr : string) : value :=
  let index := indexOf hdrs attr in
  array_get item index.

(** Lines 28-32: the object built for one row. *)
Definition build_item (hdrs : list string) (item : list value)
  : gmap string value :=
  foldl (fun dataItem header =>
           <[header := getAttrByName hdrs item header]> dataItem)
        ∅ hdrs.

(** Lines 27-35: one object per row, pushed in row order. *)
Definition build_items (responseApi : table) : list (gmap string value) :=
  foldl (fun acc item => acc ++ [build_item (headers responseApi) item])
        [] (data responseApi).

(** Lines 39-42, the body of the [try]: [None] is a thrown TypeError,
    otherwise the object after the three statements. *)
Definition enrich_item (pg : page) (squaresMetadata groupMetadata : gmap string value)
    (item : gmap string value) : option (gmap string value) :=
  name ← name_field (lang pg) (table_get squaresMetadata (prop item (squares pg)));
  let item1 := <[squares pg := name]> item in
  let item2 :=
    if decide (group pg = "section")
    then <["icon" := VStr (icon_path pg (prop item1 (group pg)))]> item1
    else item1 in
  gname ← name_field (lang pg) (table_get groupMetadata (prop item2 (group pg)));
  Some (<[group pg := gname]> item2).

(** One turn of the loop of lines 37-46 at index [i]: the element is
    replaced by its enriched form, or removed by [data.splice(i, 1)] when
    the [try] block throws ([data[i]] being [undefined] throws as well). *)
Definition enrich_step (pg : page) (squaresMetadata groupMetadata : gmap string value)
    (i : nat) (rows : list (gmap string value)) : list (gmap string value) :=
  match rows !! i with
  | Some item =>
      match enrich_item pg squaresMetadata groupMetadata item with
      | Some item' => <[i := item']> rows
      | None => splice rows (Z.of_nat i) 1 []
      end
  | None => splice rows (Z.of_nat i) 1 []
  end.

(** The loop, for [i] from [n - 1] down to [0]. *)
Fixpoint enrich_loop (pg : page) (squaresMetadata groupMetadata : gmap string value)
    (n : nat) (rows : list (gmap string value)) : list (gmap string value) :=
  match n with
  | O => rows
  | S i =>
      enrich_loop pg squaresMetadata groupMetadata i
        (enrich_step pg squaresMetadata groupMetadata i rows)
  end.

Definition buildData (pg : page) (responseApi : table)
    (squaresMetadata groupMetadata : gmap string value)
  : list (gmap string value) :=
  let rows := build_items responseApi in
  enrich_loop pg squaresMetadata groupMetadata (length rows) rows.

(** *** depthSelectorHelper (lines 53-61) *)

(** Lines 57-59: [forEach] visits the indices of the array in order and
    the callback overwrites the visited slot. *)
Definition label_in_place (dictionary : gmap string string)
    (arr : list value) : list value :=
  foldl (fun newArray index =>
           match newArray !! index with
           | Some item => <[index := labelled dictionary item]> newArray
           | None => newArray
           end)
        arr (seq 0 (length arr)).

Definition depthSelectorHelper (dictionary : gmap string string)
    (array : list string) (element : string) : list value :=
  let newArray := VStr <$> array in
  let newArray := splice newArray (indexOf_value newArray element) 1 [] in
  let newArray := splice newArray 0 0 [VStr element] in
  label_in_place dictionary newArray.

(** Line 87: the values offered by the depth selector. *)
Definition depth_values (dictionary : gmap string string) (pg : page)
  : list value :=
  depthSelectorHelper dictionary (depths pg) (squares pg).

End Pure.
Import Pure.

(** ** The script over a store of objects *)

(** The definitions above thread the arrays and objects of the script as
    values. To speak of what a call leaves unchanged, the same code is
    given over a store: every array or object the script holds a
    reference to is a cell at a location, a literal allocates a new cell
    and an assignment to a property or a slot overwrites a cell. *)
Module Store.

Abbreviation loc := positive.

Inductive cell : Type :=
  | CTable (hdrs rows : loc)          (* [{headers: ..., data: ...}] *)
  | CStrings (elems : list string)    (* an array of strings *)
  | CRefs (elems : list loc)          (* an array of objects *)
  | CValues (elems : list value)      (* an array of JSON values *)
  | CObject (props : gmap string value).

Abbreviation heap := (gmap loc cell).

(** A computation ends with a value or with a thrown TypeError, and
    in both cases with a store. *)
Inductive outcome (A : Type) : Type :=
  | Ret (a : A)
  | Throw.
Arguments Ret {A} a.
Arguments Throw {A}.

Definition M (A : Type) : Type := heap → outcome A * heap.

Definition ret {A} (a : A) : M A := fun h => (Ret a, h).

Definition throw {A} : M A := fun h => (Throw, h).

Definition bind {A B} (m : M A) (k : A → M B) : M B :=
  fun h =>
    match m h with
    | (Ret a, h') => k a h'
    | (Throw, h') => (Throw, h')
    end.

Definition try_catch (m handler : M unit) : M unit :=
  fun h =>
    match m h with
    | (Ret a, h') => (Ret a, h')
    | (Throw, h') => handler h'
    end.

Notation "' x ← m ; k" := (bind m (fun x => k))
  (at level 20, x pattern, m at level 100, k at level 200, only parsing).
Notation "x ← m ; k" := (bind m (fun x => k))
  (at level 20, m at level 100, k at level 200, only parsing).
Notation "m ;; k" := (bind m (fun _ => k))
  (at level 100, k at level 200, right associativity, only parsing).

Definition read (l : loc) : M cell :=
  fun h =>
    match h !! l with
    | Some c => (Ret c, h)
    | None => (Throw, h)
    end.

Definition write (l : loc) (c : cell) : M unit :=
  fun h => (Ret tt, <[l := c]> h).

(** [[]], [{}] and [slice]: a cell at a location not in use. *)
Definition alloc (c : cell) : M loc :=
  fun h => let l := fresh (dom h) in (Ret l, <[l := c]> h).

(** Reads at the shape the script expects; any other shape has no such
    member and the access fails. *)
Definition read_table (l : loc) : M (loc * loc) :=
  c ← read l;
  match c with CTable hdrs rows => ret (hdrs, rows) | _ => throw end.

Definition read_strings (l : loc) : M (list string) :=
  c ← read l; match c with CStrings elems => ret elems | _ => throw end.

Definition read_refs (l : loc) : M (list loc) :=
  c ← read l; match c with CRefs elems => ret elems | _ => throw end.

Definition read_values (l : loc) : M (list value) :=
  c ← read l; match c with CValues elems => ret elems | _ => throw end.

Definition read_object (l : loc) : M (gmap string value) :=
  c ← read l; match c with CObject props => ret props | _ => throw end.

(** [obj[key]] and [obj[key] = v]. *)
Definition get_prop (obj : loc) (key : string) : M value :=
  props ← read_object obj; ret (prop props key).

Definition set_prop (obj : loc) (key : string) (v : value) : M unit :=
  props ← read_object obj; write obj (CObject (<[key := v]> props)).

(** [arr[i]] used as an object: outside the array it is [undefined]
    and the property access on it throws. *)
Definition get_ref (arr : loc) (i : nat) : M loc :=
  elems ← read_refs arr;
  match elems !! i with Some l => ret l | None => throw end.

Definition push (arr : loc) (x : loc) : M unit :=
  elems ← read_refs arr; write arr (CRefs (elems ++ [x])).

Definition lift {A} (o : option A) : M A :=
  match o with Some a => ret a | None => throw end.

(** [forEach]: the indices below the length read at the start, in
    order; the body reads the slot itself. *)
Fixpoint for_each (indices : list nat) (body : nat → M unit) : M unit :=
  match indices with
  | [] => ret tt
  | i :: rest => body i ;; for_each rest body
  end.

(** Lines 19-22. *)
Definition getAttrByName (headers item : loc) (attr : string) : M value :=
  hs ← read_strings headers;
  let index := indexOf hs attr in
  vs ← read_values item;
  ret (array_get vs index).

(** Lines 39-42. *)
Definition enrich_item (pg : page) (squaresMetadata groupMetadata : loc)
    (data : loc) (i : nat) : M unit :=
  target ← get_ref data i;
  item ← get_ref data i;
  code ← get_prop item (squares pg);
  lookup ← read_object squaresMetadata;
  name ← lift (name_field (lang pg) (table_get lookup code));
  set_prop target (squares pg) name ;;
  (if decide (group pg = "section")
   then target ← get_ref data i;
        item ← get_ref data i;
        code ← get_prop item (group pg);
        set_prop target "icon" (VStr (icon_path pg code))
   else ret tt) ;;
  target ← get_ref data i;
  item ← get_ref data i;
  code ← get_prop item (group pg);
  lookup ← read_object groupMetadata;
  gname ← lift (name_field (lang pg) (table_get lookup code));
  set_prop target (group pg) gname.

(** Lines 38-45. *)
Definition enrich_step (pg : page) (squaresMetadata groupMetadata : loc)
    (data : loc) (i : nat) : M unit :=
  try_catch (enrich_item pg squaresMetadata groupMetadata data i)
    (elems ← read_refs data;
     write data (CRefs (splice elems (Z.of_nat i) 1 []))).

Fixpoint enrich_loop (pg : page) (squaresMetadata groupMetadata : loc)
    (data : loc) (n : nat) : M unit :=
  match n with
  | O => ret tt
  | S i =>
      enrich_step pg squaresMetadata groupMetadata data i ;;
      enrich_loop pg squaresMetadata groupMetadata data i
  end.

(** Lines 28-34, for the row in slot [k]. *)
Definition build_item (headers rows data : loc) (k : nat) : M unit :=
  current ← read_refs rows;
  match current !! k with
  | None => ret tt
  | Some item =>
      dataItem ← alloc (CObject ∅);
      hs ← read_strings headers;
      for_each (seq 0 (length hs))
        (fun j =>
           hs' ← read_strings headers;
           match hs' !! j with
           | None => ret tt
           | Some header =>
               v ← getAttrByName headers item header;
               set_prop dataItem header v
           end) ;;
      push data dataItem
  end.

(** Lines 17-49: the result is the reference to the new array. *)
Definition buildData (pg : page)
    (responseApi squaresMetadata groupMetadata : loc) : M loc :=
  data ← alloc (CRefs []);
  '(headers, _) ← read_table responseApi;
  '(_, rows) ← read_table responseApi;
  current ← read_refs rows;
  for_each (seq 0 (length current)) (build_item headers rows data) ;;
  elems ← read_refs data;
  enrich_loop pg squaresMetadata groupMetadata data (length elems) ;;
  ret data.

(** Lines 53-61. *)
Definition depthSelectorHelper (dictionary : gmap string string)
    (array : loc) (element : string) : M loc :=
  elems ← read_strings array;
  newArray ← alloc (CValues (VStr <$> elems));
  cur ← read_values newArray;
  write newArray (CValues (splice cur (indexOf_value cur element) 1 [])) ;;
  cur ← read_values newArray;
  write newArray (CValues (splice cur 0 0 [VStr element])) ;;
  cur ← read_values newArray;
  for_each (seq 0 (length cur))
    (fun index =>
       cur' ← read_values newArray;
       match cur' !! index with
       | None => ret tt
       | Some item =>
           write newArray (CValues (<[index := labelled dictionary item]> cur'))
       end) ;;
  ret newArray.

(** ** Vocabulary of the statements about the store *)

(** Every cell of the store [h0] a call started from is still there. *)
Definition kept (h0 h : heap) : Prop :=
  ∀ l c, h0 !! l = Some c → h !! l = Some c.

(** A location the call did not start with. *)
Definition is_new (h0 : heap) (l : loc) : Prop := h0 !! l = None.

(** The invariant of a call: the cells it started from are kept, and the
    array [data] only refers to objects made during the call. *)
Definition inv (h0 : heap) (data : loc) (h : heap) : Prop :=
  kept h0 h ∧ ∀ ls, h !! data = Some (CRefs ls) → Forall (is_new h0) ls.

(** [m] maintains the invariant, and a value it returns satisfies [R]. *)
Definition safe (h0 : heap) (data : loc) {A} (m : M A) (R : A → Prop)
  : Prop :=
  ∀ h, inv h0 data h →
    match m h with
    | (Ret a, h') => inv h0 data h' ∧ R a
    | (Throw, h') => inv h0 data h'
    end.

(** The objects at [ls] are the records [records], in order. *)
Definition cells (h : heap) (ls : list loc)
    (records : list (gmap string value)) : Prop :=
  Forall2 (fun l r => h !! l = Some (CObject r)) ls records.

(** The state of the loop: the array [data] holds distinct objects made
    by this call, which are the records [records]. *)
Definition state (h0 : heap) (data : loc) (h : heap) (ls : list loc)
    (records : list (gmap string value)) : Prop :=
  kept h0 h ∧ h !! data = Some (CRefs ls) ∧ NoDup ls
  ∧ Forall (is_new h0) ls ∧ cells h ls records.

(** The store holds the response [t] at [responseApi]. *)
Definition holds_table (h : heap) (responseApi : loc) (t : table) : Prop :=
  ∃ hl dl rls,
    h !! responseApi = Some (CTable hl dl)
    ∧ h !! hl = Some (CStrings (headers t))
    ∧ h !! dl = Some (CRefs rls)
    ∧ Forall2 (fun rl row => h !! rl = Some (CValues row)) rls (data t).

(** The array at [data] holds distinct objects that are [records]. *)
Definition holds_records (h : heap) (data : loc)
    (records : list (gmap string value)) : Prop :=
  ∃ ls, h !! data = Some (CRefs ls) ∧ NoDup ls ∧ cells h ls records.

End Store.

(** ** Vocabulary of the statements about buildData *)







(** ** Sample inputs *)

Definition demo_page : page :=
  Page "en" "entity" "group" ["entity"; "group"] "secex" "year=2014".

Definition demo_entities : gmap string value :=
  {[ "BR-SP" := VObj {[ "name_en" := VStr "Sao Paulo" ]} ]}.

Definition demo_groups : gmap string value :=
  {[ "01" := VObj {[ "name_en" := VStr "Agriculture" ]} ]}.

Definition demo_table : table :=
  Table ["entity"; "group"; "value"]
        [ [VStr "BR-SP"; VStr "01"; VNum "123"];
          [VStr "BR-RJ"; VStr "01"; VNum "7"];
          [VStr "BR-SP"; VStr "02"; VNum "9"] ].

Definition section_page : page :=
  Page "en" "entity" "section" ["entity"; "section"] "secex" "year=2014".

Definition section_table : table :=
  Table ["entity"; "section"; "value"]
        [ [VStr "BR-SP"; VStr "01"; VNum "123"] ].

Definition demo_dictionary : gmap string string :=
  {[ "country" := "Country"; "state" := "State"; "municipality" := "Municipality" ]}.

(** A store holding [demo_table] at location 1 and the two lookup
    tables at locations 7 and 8, and the depth sequence at 9. *)
Definition demo_heap : gmap positive Store.cell :=
  {[ 1%positive := Store.CTable 2 3;
     2%positive := Store.CStrings ["entity"; "group"; "value"];
     3%positive := Store.CRefs [4%positive; 5%positive; 6%positive];
     4%positive := Store.CValues [VStr "BR-SP"; VStr "01"; VNum "123"];
     5%positive := Store.CValues [VStr "BR-RJ"; VStr "01"; VNum "7"];
     6%positive := Store.CValues [VStr "BR-SP"; VStr "02"; VNum "9"];
     7%positive := Store.CObject demo_entities;
     8%positive := Store.CObject demo_groups;
     9%positive := Store.CStrings ["country"; "state"; "municipality"] ]}.

(** ** Page attributes (lines 1-7) and the depth settings of loadViz *)

(** [String.prototype.split('+')]: the pieces between the [+] signs, in
    order; a string without [+] (the empty one too) is its only piece. *)
Fixpoint split_plus (s : string) : list string :=
  match s with
  | EmptyString => [""]
  | String c rest =>
      if decide (c = "+"%char) then "" :: split_plus rest
      else match split_plus rest with
           | piece :: pieces => String c piece :: pieces
           | [] => [String c ""]
           end
  end.

(** [Array.prototype.join(sep)] on strings. *)
Fixpoint join_with (sep : string) (parts : list string) : string :=
  match parts with
  | [] => ""
  | [p] => p
  | p :: rest => p +:+ sep +:+ join_with sep rest
  end.

(** Whether a string holds a [+] sign. *)
Fixpoint has_plus (s : string) : bool :=
  match s with
  | EmptyString => false
  | String c rest => bool_decide (c = "+"%char) || has_plus rest
  end.

(** The five attributes of the [#tree_map] element, as written in the
    page. All five are taken to be present: [getAttribute] gives [null]
    for a missing one, on which line 5 throws. *)
Record attributes := Attributes {
  attr_squares : string;
  attr_group : string;
  attr_depths : string;
  attr_dataset : string;
  attr_filters : string
}.

(** Lines 2-7: the globals read from the page. *)
Definition read_page (language : string) (attrs : attributes) : page :=
  Page language (attr_squares attrs) (attr_group attrs)
       (split_plus (attr_depths attrs)) (attr_dataset attrs)
       (attr_filters attrs).

(** Line 69: [.depth(depths.length-1)]. *)
Definition initial_depth (pg : page) : Z :=
  (Z.of_nat (length (depths pg)) - 1)%Z.

(** Line 84: ['default': depths.indexOf(squares)]. *)
Definition default_depth (pg : page) : Z :=
  indexOf (depths pg) (squares pg).

(** Lines 80-83: the depth handed to [viz.depth] when the entry with
    value [choice] is picked in the selector. *)
Definition depth_of_choice (pg : page) (choice : string) : Z :=
  indexOf (depths pg) choice.

(** * Properties *)

(** ** Arrays *)

Lemma splice_remove_at {A} (pre : list A) (x : A) (suf : list A) :
  splice (pre ++ x :: suf) (Z.of_nat (length pre)) 1 [] = pre ++ suf.
Proof.
  unfold splice. rewrite length_app. cbn [length].
  rewrite decide_False by lia.
  rewrite Z.min_l by lia.
  replace (Z.min (Z.max 1 0) _) with 1%Z by lia.
  rewrite Nat2Z.id.
  replace (Z.to_nat (Z.of_nat (length pre) + 1)) with (length pre + 1) by lia.
  rewrite take_app_length. cbn [app].
  change (x :: suf) with ([x] ++ suf).
  rewrite drop_app_add.
  change (length [x] + 0) with 1. done.
Qed.

Lemma splice_out_of_range {A} (arr : list A) (i : nat) :
  (length arr ≤ i)%nat → splice arr (Z.of_nat i) 1 [] = arr.
Proof.
  intros Hi. unfold splice.
  rewrite decide_False by lia.
  rewrite Z.min_r by lia.
  replace (Z.min (Z.max 1 0) _) with 0%Z by lia.
  rewrite Z.add_0_r, Nat2Z.id. cbn [app].
  by rewrite take_drop.
Qed.

Lemma indexOf_absent (l : list string) (x : string) :
  x ∉ l → indexOf l x = (-1)%Z.
Proof.
  induction l as [|y l IH]; intros Hx; [done|].
  apply not_elem_of_cons in Hx as [Hne Hx]. cbn.
  rewrite decide_False by done. rewrite IH by done. done.
Qed.

(** ** Building the row objects *)





Lemma build_items_fmap (responseApi : table) :
  build_items responseApi
  = build_item (headers responseApi) <$> data responseApi.
Proof.
  unfold build_items.
  enough (∀ rows acc,
    foldl (fun acc item => acc ++ [build_item (headers responseApi) item])
          acc rows
    = acc ++ (build_item (headers responseApi) <$> rows)) as H.
  { by rewrite H. }
  induction rows as [|item rows IH]; intros acc; cbn.
  - by rewrite app_nil_r.
  - rewrite IH. by rewrite <- app_assoc.
Qed.

(** ** The backward loop *)

(** Running the loop over the first [length pre] slots enriches them,
    drops the ones whose [try] block throws, and leaves the rest of the
    array alone: removing a slot never shifts a slot still to visit. *)
Lemma enrich_loop_prefix pg (sm gm : gmap string value)
    (pre suf : list (gmap string value)) :
  enrich_loop pg sm gm (length pre) (pre ++ suf)
  = omap (enrich_item pg sm gm) pre ++ suf.
Proof.
  revert suf. induction pre as [|x pre IH] using rev_ind; intros suf.
  - done.
  - rewrite length_app. cbn [length].
    replace (length pre + 1) with (S (length pre)) by lia.
    cbn [enrich_loop]. rewrite <- app_assoc. cbn [app].
    unfold enrich_step.
    rewrite list_lookup_middle by done.
    rewrite omap_app. cbn [omap list_omap].
    destruct (enrich_item pg sm gm x) as [x'|] eqn:Hx.
    + rewrite insert_app_r_alt; [|lia].
      rewrite Nat.sub_diag. cbn [insert list_insert].
      rewrite IH. by rewrite <- app_assoc.
    + rewrite splice_remove_at, IH. by rewrite app_nil_r.
Qed.

Lemma buildData_omap pg (responseApi : table) (sm gm : gmap string value) :
  buildData pg responseApi sm gm
  = omap (enrich_item pg sm gm)
      (build_item (headers responseApi) <$> data responseApi).
Proof.
  unfold buildData. cbv zeta.
  rewrite <- (app_nil_r (build_items responseApi)) at 2.
  rewrite enrich_loop_prefix, app_nil_r.
  by rewrite build_items_fmap.
Qed.

(** ** The body of the [try] block *)










(** ** The pipeline on sample inputs *)

(** The scenarios of the specification: a row whose group code is not
    in the group lookup is dropped, and with the lookup entry present
    the row gives one record. *)
Example scenario_group_missing :
  buildData demo_page
    (Table ["entity"; "group"; "value"]
       [[VStr "BR-SP"; VStr "section"; VStr "123"]])
    demo_entities ∅
  = [].
Proof. vm_compute. reflexivity. Qed.

Example scenario_group_present :
  buildData demo_page
    (Table ["entity"; "group"; "value"]
       [[VStr "BR-SP"; VStr "section"; VStr "123"]])
    demo_entities
    {[ "section" := VObj {[ "name_en" := VStr "Agriculture" ]} ]}
  = [ {[ "entity" := VStr "Sao Paulo"; "group" := VStr "Agriculture";
         "value" := VStr "123" ]} ].
Proof. vm_compute. reflexivity. Qed.

(** With [section] as the grouping column the record carries the icon
    path built from the raw code. *)
Example scenario_section :
  buildData section_page section_table demo_entities demo_groups
  = [ {[ "entity" := VStr "Sao Paulo"; "section" := VStr "Agriculture";
         "value" := VNum "123";
         "icon" := VStr "/static/img/icons/section/section_01.png" ]} ].
Proof. vm_compute. reflexivity. Qed.

(** Only the middle row of [demo_table] misses: the rows around it keep
    their order. *)
Example scenario_order :
  buildData demo_page
    (Table ["entity"; "group"; "value"]
       [ [VStr "BR-SP"; VStr "01"; VNum "1"];
         [VStr "BR-RJ"; VStr "01"; VNum "2"];
         [VStr "BR-SP"; VStr "01"; VNum "3"] ])
    demo_entities demo_groups
  = [ {[ "entity" := VStr "Sao Paulo"; "group" := VStr "Agriculture";
         "value" := VNum "1" ]};
      {[ "entity" := VStr "Sao Paulo"; "group" := VStr "Agriculture";
         "value" := VNum "3" ]} ].
Proof. vm_compute. reflexivity. Qed.

(** An entry [null] cannot be read from: the row is dropped. *)
Example scenario_null_entry :
  buildData demo_page
    (Table ["entity"; "group"; "value"]
       [[VStr "BR-SP"; VStr "01"; VNum "123"]])
    {[ "BR-SP" := VNull ]} demo_groups
  = [].
Proof. vm_compute. reflexivity. Qed.

(** ** The enrichment pipeline: claims *)












(** ** The depth selector *)

(** The selector of a page showing states, with the labels the script
    sets for an English page. *)
Example depth_values_english :
  depth_values
    (set_labels (Page "en" "state" "section" ["state"; "municipality"] "secex" "")
       ∅)
    (Page "en" "state" "section" ["municipality"; "state"] "secex" "")
  = [ VObj {[ "State" := VStr "state" ]};
      VObj {[ "Municipality" := VStr "municipality" ]} ].
Proof. vm_compute. reflexivity. Qed.


Lemma indexOf_value_strings (array : list string) (element : string) :
  indexOf_value (VStr <$> array) element = indexOf array element.
Proof.
  induction array as [|x array IH]; [done|]. cbn.
  rewrite IH. destruct (decide (x = element)) as [->|Hne].
  - by rewrite bool_decide_eq_true_2.
  - by rewrite bool_decide_eq_false_2.
Qed.

Lemma indexOf_first (before after : list string) (x : string) :
  x ∉ before → indexOf (before ++ x :: after) x = Z.of_nat (length before).
Proof.
  induction before as [|y before IH]; intros Hx; cbn.
  - by rewrite decide_True.
  - apply not_elem_of_cons in Hx as [Hne Hx].
    rewrite decide_False by done. rewrite IH by done.
    rewrite decide_False by lia. lia.
Qed.

Lemma splice_insert_front {A} (arr : list A) (x : A) :
  splice arr 0 0 [x] = x :: arr.
Proof.
  unfold splice. rewrite decide_False by lia.
  rewrite Z.min_l by lia.
  replace (Z.min (Z.max 0 0) _) with 0%Z by lia.
  cbn. by rewrite drop_0.
Qed.

Lemma splice_minus_one {A} (arr : list A) :
  splice arr (-1) 1 [] = removelast arr.
Proof.
  unfold splice. rewrite decide_True by lia.
  destruct arr as [|x arr] using rev_ind; [done|].
  rewrite removelast_last, length_app. cbn [length app].
  replace (Z.max _ 0) with (Z.of_nat (length arr)) by lia.
  replace (Z.min (Z.max 1 0) _) with 1%Z by lia.
  rewrite Nat2Z.id.
  replace (Z.to_nat (Z.of_nat (length arr) + 1)) with (length arr + 1)%nat by lia.
  rewrite take_app_length.
  rewrite drop_ge; [by rewrite app_nil_r|].
  rewrite length_app. cbn. lia.
Qed.

(** Overwriting the slots one by one while walking the array is the
    same as mapping over it: the slot visited is still untouched. *)
Lemma label_in_place_fmap (dictionary : gmap string string) (arr : list value) :
  label_in_place dictionary arr = labelled dictionary <$> arr.
Proof.
  unfold label_in_place.
  enough (∀ rest visited,
    foldl (fun newArray index =>
             match newArray !! index with
             | Some item => <[index := labelled dictionary item]> newArray
             | None => newArray
             end)
          (visited ++ rest) (seq (length visited) (length rest))
    = visited ++ (labelled dictionary <$> rest)) as H.
  { apply (H arr []). }
  induction rest as [|x rest IH]; intros visited; [done|].
  cbn [length seq foldl].
  rewrite list_lookup_middle by done.
  rewrite insert_app_r_alt; [|lia].
  rewrite Nat.sub_diag. cbn [insert list_insert].
  change (visited ++ labelled dictionary x :: rest)
    with (visited ++ [labelled dictionary x] ++ rest).
  rewrite app_assoc.
  replace (S (length visited)) with (length (visited ++ [labelled dictionary x]))
    by (rewrite length_app; cbn; lia).
  rewrite IH. by rewrite <- app_assoc.
Qed.

Lemma depthSelectorHelper_present (dictionary : gmap string string)
    (before after : list string) (element : string) :
  element ∉ before →
  depthSelectorHelper dictionary (before ++ element :: after) element
  = labelled dictionary <$> (VStr <$> element :: before ++ after).
Proof.
  intros Hx. unfold depthSelectorHelper. cbv zeta.
  rewrite indexOf_value_strings, indexOf_first by done.
  rewrite fmap_app, fmap_cons.
  rewrite <- (length_fmap VStr before).
  rewrite splice_remove_at, splice_insert_front, label_in_place_fmap.
  f_equal. cbn [fmap list_fmap]. by rewrite fmap_app.
Qed.

Lemma depthSelectorHelper_absent (dictionary : gmap string string)
    (array : list string) (element : string) :
  element ∉ array →
  depthSelectorHelper dictionary array element
  = labelled dictionary <$> (VStr <$> element :: removelast array).
Proof.
  intros Hx. unfold depthSelectorHelper. cbv zeta.
  rewrite indexOf_value_strings, indexOf_absent by done.
  rewrite splice_minus_one, splice_insert_front, label_in_place_fmap.
  f_equal. rewrite fmap_cons. f_equal.
  clear Hx. induction array as [|x [|y array] IH]; [done..|].
  cbn [removelast fmap list_fmap] in *. by rewrite IH.
Qed.

Lemma filter_eq_nil_absent (array : list string) (element : string) :
  length (filter (fun level => level = element) array) = 0%nat →
  element ∉ array.
Proof.
  induction array as [|x array IH]; intros Hlen; [apply not_elem_of_nil|].
  rewrite filter_cons in Hlen.
  destruct (decide (x = element)) as [->|Hne]; [done|].
  apply not_elem_of_cons. split; [done | by apply IH].
Qed.

Lemma exactly_once_split (array : list string) (element : string) :
  length (filter (fun level => level = element) array) = 1%nat →
  ∃ before after,
    array = before ++ element :: after
    ∧ (element ∉ before) ∧ (element ∉ after).
Proof.
  induction array as [|x array IH]; intros Hlen; [done|].
  rewrite filter_cons in Hlen.
  destruct (decide (x = element)) as [->|Hne].
  - exists [], array. split; [done|]. split; [apply not_elem_of_nil|].
    apply filter_eq_nil_absent. cbn in Hlen. lia.
  - destruct (IH Hlen) as (before & after & -> & Hb & Ha).
    exists (x :: before), after. split; [done|]. split; [|done].
    apply not_elem_of_cons. split; [congruence | done].
Qed.

Lemma filter_others_absent (l : list string) (element : string) :
  element ∉ l → filter (fun level => level ≠ element) l = l.
Proof.
  induction l as [|x l IH]; intros Hx; [done|].
  apply not_elem_of_cons in Hx as [Hne Hx].
  rewrite filter_cons_True by congruence. by rewrite IH.
Qed.

(** C2: when [currentLevel] occurs exactly once in the depth sequence,
    the result lists [currentLevel] first and then the other levels in
    their original order, which is a permutation of the input, each
    level wrapped as the single-entry object from its localized label to
    the level itself. *)
Theorem depthSelectorHelper_moves_current_first
    (dictionary : gmap string string) (array : list string)
    (element : string) :
  length (filter (fun level => level = element) array) = 1%nat →
  depthSelectorHelper dictionary array element
  = (fun level =>
       VObj {[ to_string (dict_get dictionary level) := VStr level ]})
      <$> (element :: filter (fun level => level ≠ element) array)
  ∧ element :: filter (fun level => level ≠ element) array ≡ₚ array.
Proof.
  intros (before & after & -> & Hb & Ha)%exactly_once_split.
  rewrite filter_app, filter_cons_False by (intros H; by apply H).
  rewrite !filter_others_absent by done.
  split.
  - rewrite depthSelectorHelper_present by done.
    by rewrite <- list_fmap_compose.
  - apply Permutation_middle.
Qed.

Lemma depthSelectorHelper_moves_current_first_witness :
  length (filter (fun level => level = "state")
            ["country"; "state"; "municipality"]) = 1%nat
  ∧ depthSelectorHelper demo_dictionary
      ["country"; "state"; "municipality"] "state"
    = [ VObj {[ "State" := VStr "state" ]};
        VObj {[ "Country" := VStr "country" ]};
        VObj {[ "Municipality" := VStr "municipality" ]} ].
Proof.
  split; [vm_compute; reflexivity|].
  rewrite (proj1 (depthSelectorHelper_moves_current_first demo_dictionary
                    ["country"; "state"; "municipality"] "state" eq_refl)).
  vm_compute. reflexivity.
Defined.

(** C3, on the code: whenever [currentLevel] is absent from the depth
    sequence the call still returns a sequence, in which the last level
    of the input is dropped and the absent level stands first. *)
Theorem depthSelectorHelper_absent_level_corrupts
    (dictionary : gmap string string) (array : list string)
    (element : string) :
  element ∉ array →
  depthSelectorHelper dictionary array element
  = (fun level =>
       VObj {[ to_string (dict_get dictionary level) := VStr level ]})
      <$> (element :: removelast array).
Proof.
  intros Hx. rewrite depthSelectorHelper_absent by done.
  by rewrite <- list_fmap_compose.
Qed.

Lemma depthSelectorHelper_absent_level_corrupts_witness :
  ("region" ∉ ["country"; "state"; "municipality"])
  ∧ depthSelectorHelper demo_dictionary ["country"; "state"; "municipality"]
      "region"
    = [ VObj {[ "undefined" := VStr "region" ]};
        VObj {[ "Country" := VStr "country" ]};
        VObj {[ "State" := VStr "state" ]} ].
Proof.
  assert ("region" ∉ ["country"; "state"; "municipality"]) as Hx
    by (refine (bool_decide_unpack _ _); vm_compute; exact I).
  split; [exact Hx|].
  rewrite (depthSelectorHelper_absent_level_corrupts demo_dictionary
             ["country"; "state"; "municipality"] "region" Hx).
  vm_compute. reflexivity.
Defined.

(** ** The render configuration and the locators *)


(** C8: three locators are derived from the page attributes: the
    metadata of the squares level, the metadata of the group level with
    [product_section] standing for [section], and the dataset query
    [<dataset>/year/<squares>/<group>?<filters>]. *)
Theorem urls_locators (pg : page) :
  urls pg
  = [ "http://api.staging.dataviva.info/metadata/" +:+ squares pg;
      "http://api.staging.dataviva.info/metadata/"
        +:+ (if decide (group pg = "section") then "product_section"
             else group pg);
      "http://api.staging.dataviva.info/" +:+ dataset pg +:+ "/year/"
        +:+ squares pg +:+ "/" +:+ group pg +:+ "?" +:+ filters pg ].
Proof. reflexivity. Qed.

(** * Further properties of the script *)

(** ** buildData, row by row *)



(** X1: rows are processed independently of one another: the result for
    a table is the result for its first rows followed by the result for
    the rows after them, whatever the columns and lookups are. *)
Theorem buildData_row_wise pg (hdrs : list string)
    (first later : list (list value)) (sm gm : gmap string value) :
  buildData pg (Table hdrs (first ++ later)) sm gm
  = buildData pg (Table hdrs first) sm gm
      ++ buildData pg (Table hdrs later) sm gm.
Proof.
  rewrite !buildData_omap. cbn [headers data].
  by rewrite fmap_app, omap_app.
Qed.







(** ** Row objects: reading a row back *)






(** ** The depth selector *)

Lemma removelast_sublist {A} (l : list A) :
  removelast l `sublist_of` l ∧ length (removelast l) = pred (length l).
Proof.
  destruct l as [|x l] using rev_ind; [by split|].
  rewrite removelast_last. split.
  - by apply sublist_inserts_r.
  - rewrite length_app. cbn. lia.
Qed.

Lemma indexOf_present (l : list string) (x : string) :
  x ∈ l →
  (0 ≤ indexOf l x < Z.of_nat (length l))%Z
  ∧ l !! Z.to_nat (indexOf l x) = Some x.
Proof.
  intros (before & after & -> & Hx)%list_elem_of_split_l.
  rewrite indexOf_first by done. rewrite Nat2Z.id, length_app. cbn [length].
  split; [lia|]. by apply list_lookup_middle.
Qed.

(** X8: whatever the depth sequence holds, the selector lists the
    current level first, and after it the levels of the sequence in
    their order with exactly one of them left out (none when the
    sequence is empty). *)
Theorem depthSelectorHelper_current_first_always
    (dictionary : gmap string string) (array : list string)
    (element : string) :
  ∃ rest,
    depthSelectorHelper dictionary array element
    = labelled dictionary <$> (VStr <$> element :: rest)
    ∧ rest `sublist_of` array
    ∧ length rest = pred (length array).
Proof.
  destruct (decide (element ∈ array)) as [Hin|Hnin].
  - apply list_elem_of_split_l in Hin as (before & after & -> & Hx).
    exists (before ++ after). split; [by apply depthSelectorHelper_present|].
    split.
    + apply sublist_app; [done|]. by apply sublist_cons.
    + rewrite !length_app. cbn. lia.
  - exists (removelast array).
    split; [by apply depthSelectorHelper_absent|].
    apply removelast_sublist.
Qed.

(** X9: when the current level occurs in the depth sequence, possibly
    more than once, only its first occurrence is moved to the front:
    the later occurrences stay where they are, and the levels listed
    are a permutation of the sequence. *)
Theorem depthSelectorHelper_moves_first_occurrence
    (dictionary : gmap string string) (array : list string)
    (element : string) :
  element ∈ array →
  ∃ before after,
    array = before ++ element :: after
    ∧ (element ∉ before)
    ∧ depthSelectorHelper dictionary array element
      = labelled dictionary <$> (VStr <$> element :: before ++ after)
    ∧ element :: before ++ after ≡ₚ array.
Proof.
  intros (before & after & -> & Hx)%list_elem_of_split_l.
  exists before, after. split; [done|]. split; [done|].
  split; [by apply depthSelectorHelper_present|].
  apply Permutation_middle.
Qed.

Lemma depthSelectorHelper_moves_first_occurrence_witness :
  ∃ before after,
    ["country"; "state"; "country"] = before ++ "state" :: after
    ∧ ("state" ∉ before)
    ∧ depthSelectorHelper demo_dictionary ["country"; "state"; "country"]
        "state"
      = labelled demo_dictionary <$> (VStr <$> "state" :: before ++ after)
    ∧ "state" :: before ++ after ≡ₚ ["country"; "state"; "country"].
Proof.
  apply (depthSelectorHelper_moves_first_occurrence demo_dictionary
           ["country"; "state"; "country"] "state").
  set_solver.
Defined.

(** ** The depth attribute *)

Lemma split_plus_nonempty (s : string) : split_plus s ≠ [].
Proof.
  destruct s as [|c rest]; cbn; [done|].
  destruct (decide (c = "+"%char)); [done|].
  by destruct (split_plus rest).
Qed.

Lemma split_plus_no_plus (piece : string) :
  has_plus piece = false → split_plus piece = [piece].
Proof.
  induction piece as [|c piece IH]; [done|]. cbn.
  intros [Hc Hrest]%orb_false_elim.
  apply bool_decide_eq_false in Hc.
  rewrite decide_False by done. by rewrite IH.
Qed.

Lemma split_plus_app (piece rest : string) :
  has_plus piece = false →
  split_plus (piece +:+ "+" +:+ rest) = piece :: split_plus rest.
Proof.
  induction piece as [|c piece IH]; [done|]. cbn [has_plus].
  intros [Hc Hrest]%orb_false_elim.
  apply bool_decide_eq_false in Hc.
  change (split_plus (String c (piece +:+ "+" +:+ rest))
          = String c piece :: split_plus rest).
  cbn [split_plus]. rewrite decide_False by done.
  by rewrite IH.
Qed.

Lemma split_plus_join (pieces : list string) :
  pieces ≠ [] →
  Forall (fun piece => has_plus piece = false) pieces →
  split_plus (join_with "+" pieces) = pieces.
Proof.
  induction pieces as [|piece [|next pieces] IH]; intros Hne Hall; [done| |].
  - apply Forall_cons in Hall as [Hp _]. by apply split_plus_no_plus.
  - apply Forall_cons in Hall as [Hp Hall].
    change (join_with "+" (piece :: next :: pieces))
      with (piece +:+ "+" +:+ join_with "+" (next :: pieces)).
    rewrite split_plus_app by done. by rewrite IH.
Qed.

(** X10: splitting the [depths] attribute at its [+] signs loses
    nothing: joining the levels with [+] gives the attribute back, no
    level holds a [+], and there is always at least one level (the
    empty attribute gives the single level [""]). *)
Theorem split_plus_round_trip (s : string) :
  join_with "+" (split_plus s) = s
  ∧ Forall (fun level => has_plus level = false) (split_plus s)
  ∧ (0 < length (split_plus s))%nat.
Proof.
  induction s as [|c rest (IHjoin & IHall & IHlen)].
  - split; [done|]. split; [by constructor | cbn; lia].
  - cbn [split_plus].
    destruct (decide (c = "+"%char)) as [->|Hc].
    + split; [|split; [by constructor | cbn; lia]].
      destruct (split_plus rest) as [|piece pieces] eqn:Hsplit;
        [cbn in IHlen; lia|].
      change (join_with "+" ("" :: piece :: pieces))
        with ("" +:+ "+" +:+ join_with "+" (piece :: pieces)).
      by rewrite IHjoin.
    + destruct (split_plus rest) as [|piece pieces] eqn:Hsplit;
        [cbn in IHlen; lia|].
      apply Forall_cons in IHall as [Hpiece Hpieces].
      split; [|split; [|cbn; lia]].
      * destruct pieces as [|next pieces].
        -- cbn in IHjoin |- *. by rewrite IHjoin.
        -- change (join_with "+" (String c piece :: next :: pieces))
             with (String c (piece +:+ "+"
                             +:+ join_with "+" (next :: pieces))).
           by rewrite <- IHjoin.
      * constructor; [|done]. cbn.
        by rewrite bool_decide_eq_false_2, Hpiece.
Qed.

(** X11: a page whose [depths] attribute is a non-empty list of levels
    without [+] signs, written with [+] between them, has exactly these
    levels as its depth sequence. *)
Theorem read_page_depths (language : string) (attrs : attributes)
    (levels : list string) :
  levels ≠ [] →
  Forall (fun level => has_plus level = false) levels →
  attr_depths attrs = join_with "+" levels →
  depths (read_page language attrs) = levels.
Proof.
  intros Hne Hall Hattr. unfold read_page. cbn [depths].
  rewrite Hattr. by apply split_plus_join.
Qed.

Lemma read_page_depths_witness :
  depths (read_page "en"
            (Attributes "state" "section" "state+municipality" "secex"
               "year=2014"))
  = ["state"; "municipality"].
Proof.
  apply (read_page_depths "en"
           (Attributes "state" "section" "state+municipality" "secex"
              "year=2014")
           ["state"; "municipality"]).
  - discriminate.
  - repeat constructor.
  - reflexivity.
Defined.

(** X12: the depth the chart starts at (line 69) is always an index of
    the depth sequence read from the page, that of its last level: the
    sequence is never empty, so the index is never [-1]. *)
Theorem initial_depth_is_last_level (language : string) (attrs : attributes) :
  (0 ≤ initial_depth (read_page language attrs))%Z
  ∧ is_Some (last (depths (read_page language attrs)))
  ∧ depths (read_page language attrs)
      !! Z.to_nat (initial_depth (read_page language attrs))
    = last (depths (read_page language attrs)).
Proof.
  unfold initial_depth, read_page. cbn [depths].
  pose proof (split_plus_nonempty (attr_depths attrs)) as Hne.
  destruct (split_plus (attr_depths attrs)) as [|level levels]
    using rev_ind; [done|].
  rewrite length_app, last_snoc. cbn [length].
  split; [lia|]. split; [by eexists|].
  replace (Z.to_nat _) with (length levels) by lia.
  by apply list_lookup_middle.
Qed.

(** X13: the selector's default (line 84) is [-1] exactly when the
    entity column is not one of the depths; otherwise it is an index of
    the depth sequence, and the level there is the entity column. *)
Theorem default_depth_index (pg : page) :
  (default_depth pg = (-1)%Z ↔ squares pg ∉ depths pg)
  ∧ (-1 ≤ default_depth pg < Z.of_nat (length (depths pg)))%Z
  ∧ (squares pg ∈ depths pg →
     depths pg !! Z.to_nat (default_depth pg) = Some (squares pg)).
Proof.
  unfold default_depth.
  destruct (decide (squares pg ∈ depths pg)) as [Hin|Hnin].
  - destruct (indexOf_present _ _ Hin) as [Hrange Hlookup].
    split; [|split; [lia | done]].
    split; [lia | done].
  - rewrite indexOf_absent by done.
    split; [done|]. split; [lia | done].
Qed.

(** X14: when the entity column is one of the depths, the levels the
    selector offers are the depths of the page, rearranged, and picking
    any of them hands the chart an index of the depth sequence at which
    that very level stands. *)
Theorem depth_choices_are_levels (dictionary : gmap string string)
    (pg : page) :
  squares pg ∈ depths pg →
  ∃ levels,
    depth_values dictionary pg = labelled dictionary <$> (VStr <$> levels)
    ∧ levels ≡ₚ depths pg
    ∧ Forall (fun level =>
                (0 ≤ depth_of_choice pg level)%Z
                ∧ depths pg !! Z.to_nat (depth_of_choice pg level)
                  = Some level)
             levels.
Proof.
  intros Hin. unfold depth_values, depth_of_choice.
  pose proof Hin as (before & after & Hsplit & Hx)%list_elem_of_split_l.
  exists (squares pg :: before ++ after).
  assert (squares pg :: before ++ after ≡ₚ depths pg) as Hperm
    by (rewrite Hsplit; apply Permutation_middle).
  split; [rewrite Hsplit; by apply depthSelectorHelper_present|].
  split; [done|].
  apply Forall_forall. intros level Hlevel.
  rewrite Hperm in Hlevel.
  destruct (indexOf_present _ _ Hlevel) as [Hrange Hlookup].
  split; [lia | done].
Qed.

Lemma depth_choices_are_levels_witness :
  ∃ levels,
    depth_values demo_dictionary
      (Page "en" "state" "section" ["country"; "state"] "secex" "")
    = labelled demo_dictionary <$> (VStr <$> levels)
    ∧ levels
      ≡ₚ depths (Page "en" "state" "section" ["country"; "state"] "secex" "")
    ∧ Forall (fun level =>
                (0 ≤ depth_of_choice
                       (Page "en" "state" "section" ["country"; "state"]
                          "secex" "") level)%Z
                ∧ depths (Page "en" "state" "section" ["country"; "state"]
                            "secex" "")
                    !! Z.to_nat
                         (depth_of_choice
                            (Page "en" "state" "section"
                               ["country"; "state"] "secex" "") level)
                  = Some level)
             levels.
Proof.
  apply (depth_choices_are_levels demo_dictionary
           (Page "en" "state" "section" ["country"; "state"] "secex" "")).
  cbn. set_solver.
Defined.

(** ** The two labels the script sets *)

Lemma labelled_set_labels pg (dictionary : gmap string string)
    (level : string) :
  level = "state" ∨ level = "municipality" →
  labelled (set_labels pg dictionary) (VStr level)
  = labelled (set_labels pg ∅) (VStr level).
Proof.
  intros Hlevel. unfold labelled, dict_get, set_labels. cbn [to_string].
  destruct Hlevel as [-> | ->].
  - rewrite !lookup_insert_ne by done. by rewrite !lookup_insert_eq.
  - by rewrite !lookup_insert_eq.
Qed.

(** X17: for a depth sequence and a current level made of [state] and
    [municipality] only, the options of the selector are labelled by the
    two entries the script itself puts into the dictionary (lines
    14-15): they are the same whatever the site's dictionary held. *)
Theorem depth_labels_set_by_script pg (dictionary : gmap string string)
    (array : list string) (element : string) :
  Forall (fun level => level = "state" ∨ level = "municipality")
         (element :: array) →
  depthSelectorHelper (set_labels pg dictionary) array element
  = depthSelectorHelper (set_labels pg ∅) array element.
Proof.
  intros [Helement Harray]%Forall_cons.
  assert (∀ levels,
            Forall (fun level => level = "state" ∨ level = "municipality")
                   levels →
            labelled (set_labels pg dictionary) <$> (VStr <$> levels)
            = labelled (set_labels pg ∅) <$> (VStr <$> levels)) as Hsame.
  { intros levels Hlevels. rewrite <- !list_fmap_compose.
    apply Forall_fmap_ext. eapply Forall_impl; [exact Hlevels|].
    intros level Hlevel. by apply labelled_set_labels. }
  destruct (decide (element ∈ array)) as [Hin|Hnin].
  - apply list_elem_of_split_l in Hin as (before & after & -> & Hx).
    rewrite !depthSelectorHelper_present by done.
    apply Hsame. constructor; [done|].
    apply Forall_app in Harray as [Hbefore Hafter%Forall_cons].
    apply Forall_app. split; [done | apply Hafter].
  - rewrite !depthSelectorHelper_absent by done.
    apply Hsame. constructor; [done|].
    apply Forall_forall. intros level Hlevel.
    rewrite Forall_forall in Harray. apply Harray.
    eapply elem_of_sublist; [exact Hlevel|].
    apply removelast_sublist.
Qed.

Lemma depth_labels_set_by_script_witness :
  depthSelectorHelper (set_labels demo_page demo_dictionary)
    ["state"; "municipality"] "municipality"
  = depthSelectorHelper (set_labels demo_page ∅)
      ["state"; "municipality"] "municipality".
Proof.
  apply (depth_labels_set_by_script demo_page demo_dictionary
           ["state"; "municipality"] "municipality").
  repeat (constructor; [(by left) || (by right)|]). constructor.
Defined.

(** ** The script over the store *)

Module StoreProps.
Import Store.

(** *** What a call leaves unchanged *)

Section frame.
Context (h0 : heap) (data : loc).

Lemma safe_ret {A} (a : A) (R : A → Prop) : R a → safe h0 data (ret a) R.
Proof. intros HR h Hh. cbn. by split. Qed.

Lemma safe_throw {A} (R : A → Prop) : safe h0 data (@throw A) R.
Proof. intros h Hh. by cbn. Qed.

Lemma safe_bind {A B} (m : M A) (k : A → M B) (R : A → Prop) (R' : B → Prop) :
  safe h0 data m R → (∀ a, R a → safe h0 data (k a) R') → safe h0 data (bind m k) R'.
Proof.
  intros Hm Hk h Hh. unfold bind. specialize (Hm h Hh).
  destruct (m h) as [[a|] h1]; [|done].
  destruct Hm as [Hh1 Ha]. by apply Hk.
Qed.

Lemma safe_weaken {A} (m : M A) (R R' : A → Prop) :
  safe h0 data m R → (∀ a, R a → R' a) → safe h0 data m R'.
Proof.
  intros Hm HR h Hh. specialize (Hm h Hh).
  destruct (m h) as [[a|] h1]; [|done].
  destruct Hm. split; [done | by apply HR].
Qed.

Lemma safe_try_catch (m handler : M unit) (R : unit → Prop) :
  safe h0 data m R → safe h0 data handler R → safe h0 data (try_catch m handler) R.
Proof.
  intros Hm Hc h Hh. unfold try_catch. specialize (Hm h Hh).
  destruct (m h) as [[a|] h1]; [done|]. by apply Hc.
Qed.

Lemma safe_for_each (indices : list nat) (body : nat → M unit) :
  (∀ i, safe h0 data (body i) (fun _ => True)) →
  safe h0 data (for_each indices body) (fun _ => True).
Proof.
  intros Hbody. induction indices as [|i rest IH]; cbn [for_each].
  - by apply safe_ret.
  - eapply safe_bind; [apply Hbody|]. intros _ _. apply IH.
Qed.

Lemma safe_read (l : loc) :
  safe h0 data (read l)
    (fun c => l = data → ∀ ls, c = CRefs ls → Forall (is_new h0) ls).
Proof.
  intros h Hh. unfold read. destruct (h !! l) as [c|] eqn:Hl; [|done].
  split; [done|]. intros -> ls ->. by apply Hh.
Qed.

Ltac safe_typed_read :=
  eapply safe_bind; [apply safe_read|];
  intros [] _; first [by apply safe_ret | apply safe_throw].

Lemma safe_read_table (l : loc) : safe h0 data (read_table l) (fun _ => True).
Proof. unfold read_table. safe_typed_read. Qed.

Lemma safe_read_strings (l : loc) : safe h0 data (read_strings l) (fun _ => True).
Proof. unfold read_strings. safe_typed_read. Qed.

Lemma safe_read_values (l : loc) : safe h0 data (read_values l) (fun _ => True).
Proof. unfold read_values. safe_typed_read. Qed.

Lemma safe_read_object (l : loc) : safe h0 data (read_object l) (fun _ => True).
Proof. unfold read_object. safe_typed_read. Qed.

Lemma safe_read_refs (l : loc) : safe h0 data (read_refs l) (fun _ => True).
Proof. unfold read_refs. safe_typed_read. Qed.

(** The array [data] only holds objects of this call. *)
Lemma safe_read_refs_data : safe h0 data (read_refs data) (Forall (is_new h0)).
Proof.
  unfold read_refs. eapply safe_bind; [apply safe_read|].
  intros c Hc. destruct c; try apply safe_throw.
  apply safe_ret. by apply Hc.
Qed.

Lemma safe_get_ref (i : nat) : safe h0 data (get_ref data i) (is_new h0).
Proof.
  unfold get_ref. eapply safe_bind; [apply safe_read_refs_data|].
  intros ls Hls. destruct (ls !! i) as [l|] eqn:Hl; [|apply safe_throw].
  apply safe_ret. eapply Forall_lookup_1; eauto.
Qed.

Lemma safe_get_prop (l : loc) (key : string) :
  safe h0 data (get_prop l key) (fun _ => True).
Proof.
  unfold get_prop. eapply safe_bind; [apply safe_read_object|].
  intros props _. by apply safe_ret.
Qed.

Lemma safe_lift {A} (o : option A) : safe h0 data (lift o) (fun _ => True).
Proof. destruct o; [by apply safe_ret | apply safe_throw]. Qed.

(** Overwriting a cell made during the call keeps the invariant, as long
    as an array written to [data] only holds objects of the call. *)
Lemma safe_write (l : loc) (c : cell) :
  is_new h0 l →
  (∀ ls, c = CRefs ls → Forall (is_new h0) ls) →
  safe h0 data (write l c) (fun _ => True).
Proof.
  intros Hl Hc h [Hkept Hdata]. cbn. split; [|done]. split.
  - intros l' c' Hl'. rewrite lookup_insert_ne; [by apply Hkept|].
    intros ->. unfold is_new in Hl. congruence.
  - intros ls. destruct (decide (l = data)) as [->|Hne].
    + rewrite lookup_insert_eq. intros [= ->]. by apply Hc.
    + rewrite lookup_insert_ne by done. apply Hdata.
Qed.

Lemma safe_set_prop (l : loc) (key : string) (v : value) :
  is_new h0 l → safe h0 data (set_prop l key v) (fun _ => True).
Proof.
  intros Hl. unfold set_prop. eapply safe_bind; [apply safe_read_object|].
  intros props _. by apply safe_write.
Qed.

Lemma safe_push (x : loc) :
  is_new h0 data → is_new h0 x → safe h0 data (push data x) (fun _ => True).
Proof.
  intros Hdata Hx. unfold push.
  eapply safe_bind; [apply safe_read_refs_data|].
  intros ls Hls. apply safe_write; [done|].
  intros ? [= <-]. apply Forall_app. split; [done|]. by constructor.
Qed.

Lemma safe_splice (i : nat) :
  is_new h0 data →
  safe h0 data (elems ← read_refs data;
        write data (CRefs (splice elems (Z.of_nat i) 1 [])))
       (fun _ => True).
Proof.
  intros Hdata. eapply safe_bind; [apply safe_read_refs_data|].
  intros ls Hls. apply safe_write; [done|].
  intros ? [= <-]. unfold splice. cbn [app].
  apply Forall_app. split; [by apply Forall_take | by apply Forall_drop].
Qed.

Lemma safe_alloc_object (props : gmap string value) :
  safe h0 data (alloc (CObject props)) (is_new h0).
Proof.
  intros h [Hkept Hdata]. cbn.
  assert (h !! fresh (dom h) = None) as Hfresh
    by (apply not_elem_of_dom, is_fresh).
  assert (is_new h0 (fresh (dom h))) as Hnew.
  { unfold is_new. destruct (h0 !! fresh (dom h)) as [c|] eqn:Hc; [|done].
    apply Hkept in Hc. congruence. }
  split; [|done]. split.
  - intros l' c' Hl'. rewrite lookup_insert_ne; [by apply Hkept|].
    intros <-. unfold is_new in Hnew. congruence.
  - intros ls. destruct (decide (fresh (dom h) = data)) as [->|Hne].
    + by rewrite lookup_insert_eq.
    + rewrite lookup_insert_ne by done. apply Hdata.
Qed.

Lemma safe_getAttrByName (headers item : loc) (attr : string) :
  safe h0 data (getAttrByName headers item attr) (fun _ => True).
Proof.
  unfold getAttrByName.
  eapply safe_bind; [apply safe_read_strings|]. intros hs _.
  eapply safe_bind; [apply safe_read_values|]. intros vs _.
  by apply safe_ret.
Qed.

Lemma safe_enrich_item pg (sm gm : loc) (i : nat) :
  safe h0 data (enrich_item pg sm gm data i) (fun _ => True).
Proof.
  unfold enrich_item.
  eapply safe_bind; [apply safe_get_ref|]. intros target Htarget.
  eapply safe_bind; [apply safe_get_ref|]. intros item _.
  eapply safe_bind; [apply safe_get_prop|]. intros code _.
  eapply safe_bind; [apply safe_read_object|]. intros lookup _.
  eapply safe_bind; [apply safe_lift|]. intros name _.
  eapply safe_bind; [by apply safe_set_prop|]. intros _ _.
  eapply safe_bind with (R := fun _ => True).
  { destruct (decide (group pg = "section")); [|by apply safe_ret].
    eapply safe_bind; [apply safe_get_ref|]. intros target' Htarget'.
    eapply safe_bind; [apply safe_get_ref|]. intros item' _.
    eapply safe_bind; [apply safe_get_prop|]. intros code' _.
    by apply safe_set_prop. }
  intros _ _.
  eapply safe_bind; [apply safe_get_ref|]. intros target' Htarget'.
  eapply safe_bind; [apply safe_get_ref|]. intros item' _.
  eapply safe_bind; [apply safe_get_prop|]. intros code' _.
  eapply safe_bind; [apply safe_read_object|]. intros lookup' _.
  eapply safe_bind; [apply safe_lift|]. intros gname _.
  by apply safe_set_prop.
Qed.

Lemma safe_enrich_loop pg (sm gm : loc) (n : nat) :
  is_new h0 data → safe h0 data (enrich_loop pg sm gm data n) (fun _ => True).
Proof.
  intros Hdata. induction n as [|i IH]; cbn [enrich_loop].
  - by apply safe_ret.
  - eapply safe_bind with (R := fun _ => True); [|intros _ _; apply IH].
    apply safe_try_catch; [apply safe_enrich_item | by apply safe_splice].
Qed.

Lemma safe_build_item (headers rows : loc) (k : nat) :
  is_new h0 data → safe h0 data (build_item headers rows data k) (fun _ => True).
Proof.
  intros Hdata. unfold build_item.
  eapply safe_bind; [apply safe_read_refs|]. intros current _.
  destruct (current !! k) as [item|]; [|by apply safe_ret].
  eapply safe_bind; [apply safe_alloc_object|]. intros dataItem HdataItem.
  eapply safe_bind; [apply safe_read_strings|]. intros hs _.
  eapply safe_bind with (R := fun _ => True).
  - apply safe_for_each. intros j.
    eapply safe_bind; [apply safe_read_strings|]. intros hs' _.
    destruct (hs' !! j) as [header|]; [|by apply safe_ret].
    eapply safe_bind; [apply safe_getAttrByName|]. intros v _.
    by apply safe_set_prop.
  - intros _ _. by apply safe_push.
Qed.

Lemma safe_kept {A} (m : M A) (R : A → Prop) (h : heap) :
  safe h0 data m R → inv h0 data h → kept h0 (m h).2.
Proof.
  intros Hm Hh. specialize (Hm h Hh).
  destruct (m h) as [[a|] h']; cbn; [apply Hm | apply Hm].
Qed.

End frame.

Lemma inv_alloc_data (h : heap) (ls : list loc) :
  Forall (is_new h) ls →
  is_new h (fresh (dom h))
  ∧ inv h (fresh (dom h)) (<[fresh (dom h) := CRefs ls]> h).
Proof.
  intros Hls.
  assert (is_new h (fresh (dom h))) as Hnew
    by (apply not_elem_of_dom, is_fresh).
  split; [done|]. split.
  - intros l c Hl. rewrite lookup_insert_ne; [done|].
    intros <-. unfold is_new in Hnew. congruence.
  - intros ls'. rewrite lookup_insert_eq. by intros [= <-].
Qed.

Lemma buildData_kept pg (responseApi sm gm : loc) (h : heap) :
  kept h (buildData pg responseApi sm gm h).2.
Proof.
  unfold buildData. unfold bind at 1. unfold alloc at 1.
  cbv beta iota zeta.
  destruct (inv_alloc_data h []) as [Hdata Hinv]; [constructor|].
  revert Hinv. generalize (<[fresh (dom h) := CRefs []]> h).
  revert Hdata. generalize (fresh (dom h)). intros data Hdata h1 Hinv.
  eapply (safe_kept h data _ (fun _ => True)); [|done].
  eapply safe_bind; [apply safe_read_table|]. intros [headers ?] _.
  eapply safe_bind; [apply safe_read_table|]. intros [? rows] _.
  eapply safe_bind; [apply safe_read_refs|]. intros current _.
  eapply safe_bind with (R := fun _ => True).
  { apply safe_for_each. intros k. by apply safe_build_item. }
  intros _ _.
  eapply safe_bind; [apply safe_read_refs|]. intros elems _.
  eapply safe_bind with (R := fun _ => True);
    [by apply safe_enrich_loop|].
  intros _ _. by apply safe_ret.
Qed.

(** *** Running the script *)

Lemma bind_ret_run {A B} (m : M A) (k : A → M B) (h h' : heap) (a : A) :
  m h = (Ret a, h') → bind m k h = k a h'.
Proof. intros H. unfold bind. by rewrite H. Qed.

Lemma bind_throw_run {A B} (m : M A) (k : A → M B) (h h' : heap) :
  m h = (Throw, h') → bind m k h = (Throw, h').
Proof. intros H. unfold bind. by rewrite H. Qed.

Lemma read_table_run (h : heap) (l hdrs rows : loc) :
  h !! l = Some (CTable hdrs rows) → read_table l h = (Ret (hdrs, rows), h).
Proof. intros H. unfold read_table, bind, read. by rewrite H. Qed.

Lemma read_strings_run (h : heap) (l : loc) (elems : list string) :
  h !! l = Some (CStrings elems) → read_strings l h = (Ret elems, h).
Proof. intros H. unfold read_strings, bind, read. by rewrite H. Qed.

Lemma read_refs_run (h : heap) (l : loc) (elems : list loc) :
  h !! l = Some (CRefs elems) → read_refs l h = (Ret elems, h).
Proof. intros H. unfold read_refs, bind, read. by rewrite H. Qed.

Lemma read_values_run (h : heap) (l : loc) (elems : list value) :
  h !! l = Some (CValues elems) → read_values l h = (Ret elems, h).
Proof. intros H. unfold read_values, bind, read. by rewrite H. Qed.

Lemma read_object_run (h : heap) (l : loc) (props : gmap string value) :
  h !! l = Some (CObject props) → read_object l h = (Ret props, h).
Proof. intros H. unfold read_object, bind, read. by rewrite H. Qed.

Lemma get_prop_run (h : heap) (l : loc) (props : gmap string value)
    (key : string) :
  h !! l = Some (CObject props) → get_prop l key h = (Ret (prop props key), h).
Proof.
  intros H. unfold get_prop. by rewrite (bind_ret_run _ _ _ _ _ (read_object_run _ _ _ H)).
Qed.

Lemma set_prop_run (h : heap) (l : loc) (props : gmap string value)
    (key : string) (v : value) :
  h !! l = Some (CObject props) →
  set_prop l key v h = (Ret tt, <[l := CObject (<[key := v]> props)]> h).
Proof.
  intros H. unfold set_prop. by rewrite (bind_ret_run _ _ _ _ _ (read_object_run _ _ _ H)).
Qed.

Lemma get_ref_run (h : heap) (arr : loc) (elems : list loc) (i : nat) (l : loc) :
  h !! arr = Some (CRefs elems) → elems !! i = Some l →
  get_ref arr i h = (Ret l, h).
Proof.
  intros H Hi. unfold get_ref.
  rewrite (bind_ret_run _ _ _ _ _ (read_refs_run _ _ _ H)). by rewrite Hi.
Qed.

Lemma get_ref_throw (h : heap) (arr : loc) (elems : list loc) (i : nat) :
  h !! arr = Some (CRefs elems) → elems !! i = None →
  get_ref arr i h = (Throw, h).
Proof.
  intros H Hi. unfold get_ref.
  rewrite (bind_ret_run _ _ _ _ _ (read_refs_run _ _ _ H)). by rewrite Hi.
Qed.

Lemma push_run (h : heap) (arr : loc) (elems : list loc) (x : loc) :
  h !! arr = Some (CRefs elems) →
  push arr x h = (Ret tt, <[arr := CRefs (elems ++ [x])]> h).
Proof.
  intros H. unfold push. by rewrite (bind_ret_run _ _ _ _ _ (read_refs_run _ _ _ H)).
Qed.

Lemma splice_nat {A} (arr : list A) (i : nat) :
  splice arr (Z.of_nat i) 1 [] = take i arr ++ drop (S i) arr.
Proof.
  destruct (decide (i < length arr)%nat) as [Hlt|Hge].
  - destruct (lookup_lt_is_Some_2 arr i Hlt) as [x Hx].
    pose proof (splice_remove_at (take i arr) x (drop (S i) arr)) as H.
    rewrite take_drop_middle in H by done.
    rewrite length_take_le in H by lia. done.
  - rewrite splice_out_of_range by lia.
    rewrite take_ge, drop_ge by lia. by rewrite app_nil_r.
Qed.

(** *** The loop over the store computes what the loop over values does *)

Section agreement.
Context (pg : page) (h0 : heap) (data sm gm : loc).
Context (smv gmv : gmap string value).
Context (Hdata : is_new h0 data).
Context (Hsm : h0 !! sm = Some (CObject smv)).
Context (Hgm : h0 !! gm = Some (CObject gmv)).

Lemma state_item_ne_data h ls records i l :
  state h0 data h ls records → ls !! i = Some l → l ≠ data.
Proof.
  intros (_ & Hd & _ & _ & Hc) Hl ->.
  destruct (Forall2_lookup_l _ _ _ _ _ Hc Hl) as (r & _ & Hr). congruence.
Qed.

Lemma state_update h ls records i l r' :
  state h0 data h ls records → ls !! i = Some l →
  state h0 data (<[l := CObject r']> h) ls (<[i := r']> records).
Proof.
  intros Hst Hl. pose proof (state_item_ne_data _ _ _ _ _ Hst Hl) as Hne.
  destruct Hst as (Hk & Hd & Hnd & Hnew & Hc).
  assert (is_new h0 l) as Hl_new by (eapply Forall_lookup_1; eauto).
  split; [|split; [|split; [|split]]]; try done.
  - intros l' c' Hl'. rewrite lookup_insert_ne; [by apply Hk|].
    intros ->. unfold is_new in Hl_new. congruence.
  - by rewrite lookup_insert_ne.
  - apply Forall2_same_length_lookup. split.
    + rewrite length_insert. by eapply Forall2_length.
    + intros j l' r Hj Hr. destruct (decide (i = j)) as [->|Hij].
      * assert (l' = l) as -> by congruence.
        rewrite lookup_insert_eq. f_equal. f_equal.
        rewrite list_lookup_insert_eq in Hr; [congruence|].
        apply Forall2_length in Hc. rewrite <- Hc.
        by eapply lookup_lt_Some.
      * rewrite list_lookup_insert_ne in Hr by done.
        rewrite lookup_insert_ne.
        { exact (Forall2_lookup_lr _ _ _ _ _ _ Hc Hj Hr). }
        intros ->. apply Hij. by eapply NoDup_lookup.
Qed.

Lemma state_splice h ls records i :
  state h0 data h ls records →
  state h0 data (<[data := CRefs (splice ls (Z.of_nat i) 1 [])]> h)
        (splice ls (Z.of_nat i) 1 []) (splice records (Z.of_nat i) 1 []).
Proof.
  intros Hst. pose proof Hst as (Hk & Hd & Hnd & Hnew & Hc).
  rewrite !splice_nat.
  split; [|split; [|split; [|split]]].
  - intros l' c' Hl'. rewrite lookup_insert_ne; [by apply Hk|].
    intros ->. unfold is_new in Hdata. congruence.
  - by rewrite lookup_insert_eq.
  - eapply sublist_NoDup; [exact Hnd|].
    rewrite <- (take_drop i ls) at 3.
    apply sublist_app; [done|].
    change (S i) with (1 + i)%nat. rewrite Nat.add_comm, <- drop_drop.
    apply sublist_drop.
  - apply Forall_app. split; [by apply Forall_take | by apply Forall_drop].
  - assert (cells (<[data := CRefs (take i ls ++ drop (S i) ls)]> h) ls records)
      as Hc'.
    { apply Forall2_same_length_lookup. split; [by eapply Forall2_length|].
      intros j l r Hj Hr. rewrite lookup_insert_ne.
      - exact (Forall2_lookup_lr _ _ _ _ _ _ Hc Hj Hr).
      - intros <-. by eapply state_item_ne_data. }
    apply Forall2_app; [by apply Forall2_take | by apply Forall2_drop].
Qed.

Lemma splice_insert_same {A} (l : list A) (i : nat) (x : A) :
  splice (<[i := x]> l) (Z.of_nat i) 1 [] = splice l (Z.of_nat i) 1 [].
Proof.
  rewrite !splice_nat. f_equal.
  - by rewrite take_insert_ge by lia.
  - by rewrite drop_insert_lt by lia.
Qed.

(** The [try] block over the store: when the block over values succeeds
    the object in slot [i] becomes its result; when it throws, only that
    object may have changed. *)
Lemma enrich_item_run h ls records i l r :
  state h0 data h ls records → ls !! i = Some l → records !! i = Some r →
  match Pure.enrich_item pg smv gmv r with
  | Some r' =>
      Store.enrich_item pg sm gm data i h = (Ret tt, <[l := CObject r']> h)
  | None =>
      ∃ r1, Store.enrich_item pg sm gm data i h
            = (Throw, <[l := CObject r1]> h)
  end.
Proof.
  intros Hst Hl Hr.
  pose proof (state_item_ne_data _ _ _ _ _ Hst Hl) as Hne.
  destruct Hst as (Hk & Hd & Hnd & Hnew & Hc).
  assert (h !! l = Some (CObject r)) as Hcell
    by exact (Forall2_lookup_lr _ _ _ _ _ _ Hc Hl Hr).
  assert (is_new h0 l) as Hl_new by (eapply Forall_lookup_1; eauto).
  assert (l ≠ sm) as Hlsm by (intros ->; unfold is_new in *; congruence).
  assert (l ≠ gm) as Hlgm by (intros ->; unfold is_new in *; congruence).
  unfold Store.enrich_item, Pure.enrich_item.
  rewrite (bind_ret_run _ _ _ _ _ (get_ref_run _ _ _ _ _ Hd Hl)).
  rewrite (bind_ret_run _ _ _ _ _ (get_ref_run _ _ _ _ _ Hd Hl)).
  rewrite (bind_ret_run _ _ _ _ _ (get_prop_run _ _ _ _ Hcell)).
  rewrite (bind_ret_run _ _ _ _ _ (read_object_run _ _ _ (Hk _ _ Hsm))).
  destruct (name_field (lang pg) (table_get smv (prop r (squares pg))))
    as [name|]; cbn [lift mbind option_bind].
  2:{ exists r. by rewrite insert_id. }
  rewrite (bind_ret_run _ _ _ _ _ (eq_refl : ret name h = (Ret name, h))).
  rewrite (bind_ret_run _ _ _ _ _ (set_prop_run _ _ _ _ _ Hcell)).
  set (r1 := <[squares pg := name]> r).
  set (h1 := <[l := CObject r1]> h).
  assert (h1 !! data = Some (CRefs ls)) as Hd1
    by (unfold h1; by rewrite lookup_insert_ne).
  assert (h1 !! l = Some (CObject r1)) as Hcell1
    by (unfold h1; by rewrite lookup_insert_eq).
  set (r2 := if decide (group pg = "section")
             then <["icon" := VStr (icon_path pg (prop r1 (group pg)))]> r1
             else r1).
  set (h2 := <[l := CObject r2]> h).
  assert ((if decide (group pg = "section")
           then bind (get_ref data i) (fun target =>
                bind (get_ref data i) (fun item =>
                bind (get_prop item (group pg)) (fun code =>
                set_prop target "icon" (VStr (icon_path pg code)))))
           else ret tt) h1 = (Ret tt, h2)) as Hicon.
  { unfold h2, r2. destruct (decide (group pg = "section")).
    - rewrite (bind_ret_run _ _ _ _ _ (get_ref_run _ _ _ _ _ Hd1 Hl)).
      rewrite (bind_ret_run _ _ _ _ _ (get_ref_run _ _ _ _ _ Hd1 Hl)).
      rewrite (bind_ret_run _ _ _ _ _ (get_prop_run _ _ _ _ Hcell1)).
      rewrite (set_prop_run _ _ _ _ _ Hcell1).
      unfold h1. by rewrite insert_insert_eq.
    - done. }
  rewrite (bind_ret_run _ _ _ _ _ Hicon).
  assert (h2 !! data = Some (CRefs ls)) as Hd2
    by (unfold h2; by rewrite lookup_insert_ne).
  assert (h2 !! l = Some (CObject r2)) as Hcell2
    by (unfold h2; by rewrite lookup_insert_eq).
  assert (h2 !! gm = Some (CObject gmv)) as Hgm2
    by (unfold h2; rewrite lookup_insert_ne by done; by apply Hk).
  rewrite (bind_ret_run _ _ _ _ _ (get_ref_run _ _ _ _ _ Hd2 Hl)).
  rewrite (bind_ret_run _ _ _ _ _ (get_ref_run _ _ _ _ _ Hd2 Hl)).
  rewrite (bind_ret_run _ _ _ _ _ (get_prop_run _ _ _ _ Hcell2)).
  rewrite (bind_ret_run _ _ _ _ _ (read_object_run _ _ _ Hgm2)).
  fold r1. fold r2.
  destruct (name_field (lang pg) (table_get gmv (prop r2 (group pg))))
    as [gname|]; cbn [lift mbind option_bind].
  2:{ by exists r2. }
  rewrite (bind_ret_run _ _ _ _ _ (eq_refl : ret gname h2 = (Ret gname, h2))).
  rewrite (set_prop_run _ _ _ _ _ Hcell2).
  unfold h2. by rewrite insert_insert_eq.
Qed.

Lemma enrich_step_run h ls records i :
  state h0 data h ls records →
  ∃ h' ls',
    Store.enrich_step pg sm gm data i h = (Ret tt, h')
    ∧ state h0 data h' ls' (Pure.enrich_step pg smv gmv i records).
Proof.
  intros Hst. pose proof Hst as (Hk & Hd & Hnd & Hnew & Hc).
  unfold Store.enrich_step, Pure.enrich_step, try_catch.
  destruct (records !! i) as [r|] eqn:Hr.
  - destruct (Forall2_lookup_r _ _ _ _ _ Hc Hr) as (l & Hl & Hcell).
    pose proof (enrich_item_run _ _ _ _ _ _ Hst Hl Hr) as Hrun.
    destruct (Pure.enrich_item pg smv gmv r) as [r'|].
    + rewrite Hrun. eexists _, ls. split; [done|]. by apply state_update.
    + destruct Hrun as [r1 ->].
      pose proof (state_update _ _ _ _ _ r1 Hst Hl) as Hst1.
      pose proof Hst1 as (_ & Hd1 & _).
      rewrite (bind_ret_run _ _ _ _ _ (read_refs_run _ _ _ Hd1)).
      eexists _, _. split; [done|].
      rewrite <- (splice_insert_same records i r1). by apply state_splice.
  - assert (ls !! i = None) as Hl.
    { apply lookup_ge_None. apply lookup_ge_None in Hr.
      apply Forall2_length in Hc. lia. }
    unfold Store.enrich_item.
    rewrite (bind_throw_run _ _ _ _ (get_ref_throw _ _ _ _ Hd Hl)).
    rewrite (bind_ret_run _ _ _ _ _ (read_refs_run _ _ _ Hd)).
    eexists _, _. split; [done|]. by apply state_splice.
Qed.

Lemma enrich_loop_run n h ls records :
  state h0 data h ls records →
  ∃ h' ls',
    Store.enrich_loop pg sm gm data n h = (Ret tt, h')
    ∧ state h0 data h' ls' (Pure.enrich_loop pg smv gmv n records).
Proof.
  revert h ls records. induction n as [|i IH]; intros h ls records Hst.
  - by exists h, ls.
  - cbn [Store.enrich_loop Pure.enrich_loop].
    destruct (enrich_step_run _ _ _ i Hst) as (h1 & ls1 & Hrun & Hst1).
    rewrite (bind_ret_run _ _ _ _ _ Hrun). by eapply IH.
Qed.

End agreement.

(** *** Building the row objects in the store *)

Lemma getAttrByName_run (h : heap) (hl item : loc) (hs : list string)
    (row : list value) (attr : string) :
  h !! hl = Some (CStrings hs) → h !! item = Some (CValues row) →
  Store.getAttrByName hl item attr h
  = (Ret (Pure.getAttrByName hs row attr), h).
Proof.
  intros Hh Hitem. unfold Store.getAttrByName.
  rewrite (bind_ret_run _ _ _ _ _ (read_strings_run _ _ _ Hh)).
  by rewrite (bind_ret_run _ _ _ _ _ (read_values_run _ _ _ Hitem)).
Qed.

(** The inner [forEach] sets one property per header on [dataItem]. *)
Lemma fill_item_run (h : heap) (hl dataItem item : loc) (row : list value)
    (rest visited : list string) (acc : gmap string value) :
  h !! hl = Some (CStrings (visited ++ rest)) →
  h !! item = Some (CValues row) →
  h !! dataItem = Some (CObject acc) →
  for_each (seq (length visited) (length rest))
    (fun j =>
       bind (read_strings hl) (fun hs' =>
         match hs' !! j with
         | None => ret tt
         | Some header =>
             bind (Store.getAttrByName hl item header) (fun v =>
               set_prop dataItem header v)
         end)) h
  = (Ret tt,
     <[dataItem :=
         CObject
           (foldl (fun d header =>
                     <[header := Pure.getAttrByName (visited ++ rest) row header]> d)
                  acc rest)]> h).
Proof.
  revert visited acc h.
  induction rest as [|x rest IH]; intros visited acc h Hh Hitem Hobj.
  - cbn. by rewrite insert_id.
  - cbn [length seq for_each foldl].
    assert (hl ≠ dataItem) as Hne1 by (intros ->; congruence).
    assert (item ≠ dataItem) as Hne2 by (intros ->; congruence).
    set (v := Pure.getAttrByName (visited ++ x :: rest) row x).
    set (h1 := <[dataItem := CObject (<[x := v]> acc)]> h).
    erewrite (bind_ret_run _ _ h h1 tt).
    2:{ rewrite (bind_ret_run _ _ _ _ _ (read_strings_run _ _ _ Hh)).
        rewrite list_lookup_middle by done.
        rewrite (bind_ret_run _ _ _ _ _
                   (getAttrByName_run _ _ _ _ _ _ Hh Hitem)).
        by apply set_prop_run. }
    specialize (IH (visited ++ [x]) (<[x := v]> acc) h1).
    rewrite <- app_assoc in IH. cbn [app] in IH.
    rewrite length_app in IH. cbn [length] in IH. rewrite Nat.add_1_r in IH.
    rewrite IH.
    + unfold h1. by rewrite insert_insert_eq.
    + unfold h1. by rewrite lookup_insert_ne.
    + unfold h1. by rewrite lookup_insert_ne.
    + unfold h1. by rewrite lookup_insert_eq.
Qed.

Section rows.
Context (h0 : heap) (data hl dl : loc).
Context (hdrs : list string) (rls : list loc) (rows : list (list value)).
Context (Hdata : is_new h0 data).
Context (Hhl : h0 !! hl = Some (CStrings hdrs)).
Context (Hdl : h0 !! dl = Some (CRefs rls)).
Context (Hrows : Forall2 (fun rl row => h0 !! rl = Some (CValues row)) rls rows).

Lemma kept_is_new (h : heap) (l : loc) :
  kept h0 h → h !! l = None → is_new h0 l.
Proof.
  intros Hk Hl. unfold is_new.
  destruct (h0 !! l) as [c|] eqn:Hc; [|done].
  apply Hk in Hc. congruence.
Qed.

Lemma build_item_run (k : nat) (h : heap) (ls : list loc) :
  (k < length rows)%nat →
  state h0 data h ls (Pure.build_item hdrs <$> take k rows) →
  ∃ h' ls',
    Store.build_item hl dl data k h = (Ret tt, h')
    ∧ state h0 data h' ls' (Pure.build_item hdrs <$> take (S k) rows).
Proof.
  intros Hk Hst. pose proof Hst as (Hkept & Hd & Hnd & Hnew & Hc).
  destruct (lookup_lt_is_Some_2 rows k Hk) as [row Hrow].
  destruct (Forall2_lookup_r _ _ _ _ _ Hrows Hrow) as (item & Hitem & Hcell).
  unfold Store.build_item.
  rewrite (bind_ret_run _ _ _ _ _ (read_refs_run _ _ _ (Hkept _ _ Hdl))).
  rewrite Hitem.
  set (d := fresh (dom h)).
  assert (h !! d = None) as Hd_fresh by (apply not_elem_of_dom, is_fresh).
  assert (is_new h0 d) as Hd_new by (by eapply kept_is_new).
  set (h1 := <[d := CObject ∅]> h).
  rewrite (bind_ret_run _ _ h h1 d) by done.
  assert (hl ≠ d) as Hne_hl by (intros ->; apply Hkept in Hhl; congruence).
  assert (item ≠ d) as Hne_item by (intros ->; apply Hkept in Hcell; congruence).
  assert (data ≠ d) as Hne_data by (intros ->; congruence).
  assert (h1 !! hl = Some (CStrings hdrs)) as Hhl1
    by (unfold h1; rewrite lookup_insert_ne by done; by apply Hkept).
  rewrite (bind_ret_run _ _ _ _ _ (read_strings_run _ _ _ Hhl1)).
  pose proof (fill_item_run h1 hl d item row hdrs [] ∅) as Hfill.
  cbn [app length] in Hfill.
  rewrite (bind_ret_run _ _ _ _ _ (Hfill Hhl1
    ltac:(unfold h1; rewrite lookup_insert_ne by done; by apply Hkept)
    ltac:(unfold h1; by rewrite lookup_insert_eq))).
  fold (Pure.build_item hdrs row).
  unfold h1. rewrite insert_insert_eq.
  set (h2 := <[d := CObject (Pure.build_item hdrs row)]> h).
  assert (h2 !! data = Some (CRefs ls)) as Hd2
    by (unfold h2; by rewrite lookup_insert_ne).
  rewrite (push_run _ _ _ _ Hd2).
  eexists _, (ls ++ [d]). split; [done|].
  assert (d ∉ ls) as Hd_notin.
  { intros Hin. apply list_elem_of_lookup in Hin as [j Hj].
    destruct (Forall2_lookup_l _ _ _ _ _ Hc Hj) as (r & _ & Hr). congruence. }
  split; [|split; [|split; [|split]]].
  - intros l c Hl. rewrite lookup_insert_ne.
    + unfold h2. rewrite lookup_insert_ne; [by apply Hkept|].
      intros <-. unfold is_new in Hd_new. congruence.
    + intros <-. unfold is_new in Hdata. congruence.
  - by rewrite lookup_insert_eq.
  - apply NoDup_app. split; [done|]. split.
    + intros x Hx [->|[]%elem_of_nil]%elem_of_cons. done.
    + apply NoDup_singleton.
  - apply Forall_app. split; [done|]. by constructor.
  - rewrite (take_S_r _ _ _ Hrow), fmap_app. apply Forall2_app.
    + apply Forall2_same_length_lookup. split; [by eapply Forall2_length|].
      intros j l r Hj Hr.
      rewrite lookup_insert_ne.
      * unfold h2. rewrite lookup_insert_ne.
        { exact (Forall2_lookup_lr _ _ _ _ _ _ Hc Hj Hr). }
        intros <-. apply Hd_notin. by eapply list_elem_of_lookup_2.
      * intros <-. pose proof (Forall2_lookup_lr _ _ _ _ _ _ Hc Hj Hr).
        congruence.
    + constructor; [|constructor].
      rewrite lookup_insert_ne by done. unfold h2. by rewrite lookup_insert_eq.
Qed.

Lemma build_items_run (n k : nat) (h : heap) (ls : list loc) :
  (k + n = length rows)%nat →
  state h0 data h ls (Pure.build_item hdrs <$> take k rows) →
  ∃ h' ls',
    for_each (seq k n) (Store.build_item hl dl data) h = (Ret tt, h')
    ∧ state h0 data h' ls' (Pure.build_item hdrs <$> rows).
Proof.
  revert k h ls. induction n as [|n IH]; intros k h ls Hlen Hst.
  - exists h, ls. split; [done|].
    rewrite take_ge in Hst by lia. done.
  - cbn [seq for_each].
    destruct (build_item_run k h ls ltac:(lia) Hst) as (h1 & ls1 & Hrun & Hst1).
    rewrite (bind_ret_run _ _ _ _ _ Hrun).
    eapply IH; [|exact Hst1]. lia.
Qed.

End rows.

Lemma holds_table_kept (h h' : heap) (responseApi : loc) (t : table) :
  kept h h' → holds_table h responseApi t → holds_table h' responseApi t.
Proof.
  intros Hk (hl & dl & rls & Hr & Hhl & Hdl & Hrows).
  exists hl, dl, rls. repeat split; try by apply Hk.
  eapply Forall2_impl; [exact Hrows|]. intros rl row. apply Hk.
Qed.

(** Over the store the call returns a new array whose objects are the
    records the value-threading [buildData] computes. *)
Lemma buildData_run pg (h : heap) (responseApi sm gm : loc) (t : table)
    (smv gmv : gmap string value) :
  holds_table h responseApi t →
  h !! sm = Some (CObject smv) →
  h !! gm = Some (CObject gmv) →
  ∃ d h',
    Store.buildData pg responseApi sm gm h = (Ret d, h')
    ∧ h !! d = None
    ∧ holds_records h' d (Pure.buildData pg t smv gmv).
Proof.
  intros (hl & dl & rls & Hr & Hhl & Hdl & Hrows) Hsm Hgm.
  unfold Store.buildData.
  set (d := fresh (dom h)).
  assert (h !! d = None) as Hdata by (apply not_elem_of_dom, is_fresh).
  set (h1 := <[d := CRefs []]> h).
  rewrite (bind_ret_run _ _ h h1 d) by done.
  assert (state h d h1 [] (Pure.build_item (headers t) <$> take 0 (data t)))
    as Hst1.
  { destruct (inv_alloc_data h []) as [_ [Hk _]]; [constructor|].
    split; [exact Hk|]. split; [apply lookup_insert_eq|].
    split; [constructor|]. split; constructor. }
  pose proof Hst1 as (Hk1 & _).
  rewrite (bind_ret_run _ _ _ _ _ (read_table_run _ _ _ _ (Hk1 _ _ Hr))).
  rewrite (bind_ret_run _ _ _ _ _ (read_table_run _ _ _ _ (Hk1 _ _ Hr))).
  rewrite (bind_ret_run _ _ _ _ _ (read_refs_run _ _ _ (Hk1 _ _ Hdl))).
  destruct (build_items_run h d hl dl (headers t) rls (data t)
              Hdata Hhl Hdl Hrows (length rls) 0 h1 [])
    as (h2 & ls2 & Hrun2 & Hst2); [|exact Hst1|].
  { apply Forall2_length in Hrows. lia. }
  rewrite (bind_ret_run _ _ _ _ _ Hrun2).
  pose proof Hst2 as (_ & Hd2 & _ & _ & Hc2).
  rewrite (bind_ret_run _ _ _ _ _ (read_refs_run _ _ _ Hd2)).
  destruct (enrich_loop_run pg h d sm gm smv gmv Hdata Hsm Hgm
              (length ls2) h2 ls2 _ Hst2)
    as (h3 & ls3 & Hrun3 & Hst3).
  rewrite (bind_ret_run _ _ _ _ _ Hrun3).
  exists d, h3. split; [done|]. split; [done|].
  destruct Hst3 as (_ & Hd3 & Hnd3 & _ & Hc3).
  exists ls3. split; [done|]. split; [done|].
  unfold Pure.buildData. cbv zeta. rewrite build_items_fmap.
  rewrite length_fmap.
  apply Forall2_length in Hc2. rewrite length_fmap in Hc2.
  by rewrite <- Hc2.
Qed.

(** *** The depth selector over the store *)

Lemma label_loop_run (dictionary : gmap string string) (newArray : loc)
    (rest visited : list value) (h : heap) :
  h !! newArray = Some (CValues (visited ++ rest)) →
  for_each (seq (length visited) (length rest))
    (fun index =>
       bind (read_values newArray) (fun cur' =>
         match cur' !! index with
         | None => ret tt
         | Some item =>
             write newArray
               (CValues (<[index := labelled dictionary item]> cur'))
         end)) h
  = (Ret tt,
     <[newArray := CValues (visited ++ (labelled dictionary <$> rest))]> h).
Proof.
  revert visited h. induction rest as [|x rest IH]; intros visited h Hh.
  - cbn. by rewrite insert_id.
  - cbn [length seq for_each].
    set (h1 := <[newArray :=
                   CValues ((visited ++ [labelled dictionary x]) ++ rest)]> h).
    erewrite (bind_ret_run _ _ h h1 tt).
    2:{ rewrite (bind_ret_run _ _ _ _ _ (read_values_run _ _ _ Hh)).
        rewrite list_lookup_middle by done.
        unfold write, h1. do 3 f_equal.
        rewrite insert_app_r_alt; [|lia].
        rewrite Nat.sub_diag. cbn. by rewrite <- app_assoc. }
    specialize (IH (visited ++ [labelled dictionary x]) h1).
    rewrite length_app in IH. cbn [length] in IH. rewrite Nat.add_1_r in IH.
    rewrite IH by (unfold h1; apply lookup_insert_eq).
    unfold h1. rewrite insert_insert_eq.
    by rewrite <- app_assoc.
Qed.

Lemma depthSelectorHelper_run (dictionary : gmap string string) (h : heap)
    (array : loc) (ds : list string) (element : string) :
  h !! array = Some (CStrings ds) →
  Store.depthSelectorHelper dictionary array element h
  = (Ret (fresh (dom h)),
     <[fresh (dom h) :=
         CValues (Pure.depthSelectorHelper dictionary ds element)]> h).
Proof.
  intros Harr. unfold Store.depthSelectorHelper.
  rewrite (bind_ret_run _ _ _ _ _ (read_strings_run _ _ _ Harr)).
  set (n := fresh (dom h)).
  set (h1 := <[n := CValues (VStr <$> ds)]> h).
  rewrite (bind_ret_run _ _ h h1 n) by done.
  rewrite (bind_ret_run _ _ _ _ _
             (read_values_run h1 n _ ltac:(apply lookup_insert_eq))).
  unfold h1 at 1. unfold bind at 1, write at 1. rewrite insert_insert_eq.
  set (a2 := splice (VStr <$> ds) (indexOf_value (VStr <$> ds) element) 1 []).
  rewrite (bind_ret_run _ _ _ _ _
             (read_values_run (<[n := CValues a2]> h) n _
                ltac:(apply lookup_insert_eq))).
  unfold bind at 1, write at 1. rewrite insert_insert_eq.
  set (a3 := splice a2 0 0 [VStr element]).
  rewrite (bind_ret_run _ _ _ _ _
             (read_values_run (<[n := CValues a3]> h) n _
                ltac:(apply lookup_insert_eq))).
  rewrite (bind_ret_run _ _ _ _ _
             (label_loop_run dictionary n a3 [] (<[n := CValues a3]> h)
                ltac:(apply lookup_insert_eq))).
  cbn [app]. rewrite insert_insert_eq.
  unfold Pure.depthSelectorHelper. cbv zeta.
  fold a2. fold a3. by rewrite label_in_place_fmap.
Qed.

Lemma depthSelectorHelper_kept (dictionary : gmap string string) (h : heap)
    (array : loc) (element : string) :
  kept h (Store.depthSelectorHelper dictionary array element h).2.
Proof.
  destruct (h !! array) as [c|] eqn:Harr.
  - destruct c as [| ds | | |].
    2:{ rewrite (depthSelectorHelper_run _ _ _ _ _ Harr). cbn.
        intros l c Hl. rewrite lookup_insert_ne; [done|].
        intros <-.
        assert (h !! fresh (dom h) = None)
          by (apply not_elem_of_dom, is_fresh).
        congruence. }
    all: unfold Store.depthSelectorHelper, read_strings, bind, read;
      rewrite Harr; cbn; by intros l c Hl.
  - unfold Store.depthSelectorHelper, read_strings, bind, read.
    rewrite Harr. cbn. by intros l c Hl.
Qed.

(** *** Frame claims *)

(** C7: a call of [buildData] changes no cell the store already had, so
    the observation table and the two lookup tables are as they were;
    and on a response and two lookup tables it returns a new array,
    holding the records that [buildData] computes. *)
Theorem buildData_leaves_inputs_unchanged pg (h : heap)
    (responseApi sm gm : loc) :
  (∀ l c, h !! l = Some c →
     (Store.buildData pg responseApi sm gm h).2 !! l = Some c)
  ∧ ∀ (t : table) (smv gmv : gmap string value),
      holds_table h responseApi t →
      h !! sm = Some (CObject smv) →
      h !! gm = Some (CObject gmv) →
      holds_table (Store.buildData pg responseApi sm gm h).2 responseApi t
      ∧ (Store.buildData pg responseApi sm gm h).2 !! sm = Some (CObject smv)
      ∧ (Store.buildData pg responseApi sm gm h).2 !! gm = Some (CObject gmv)
      ∧ ∃ d,
          (Store.buildData pg responseApi sm gm h).1 = Ret d
          ∧ h !! d = None
          ∧ holds_records (Store.buildData pg responseApi sm gm h).2 d
              (Pure.buildData pg t smv gmv).
Proof.
  pose proof (buildData_kept pg responseApi sm gm h) as Hk.
  split; [exact Hk|].
  intros t smv gmv Ht Hsm Hgm.
  split; [by eapply holds_table_kept|].
  split; [by apply Hk|]. split; [by apply Hk|].
  destruct (buildData_run pg h responseApi sm gm t smv gmv Ht Hsm Hgm)
    as (d & h' & Hrun & Hd & Hrec).
  exists d. by rewrite Hrun.
Qed.

Lemma buildData_leaves_inputs_unchanged_witness :
  holds_table demo_heap 1 demo_table
  ∧ holds_table (Store.buildData demo_page 1 7 8 demo_heap).2 1 demo_table
  ∧ (Store.buildData demo_page 1 7 8 demo_heap).2 !! 7%positive
    = Some (CObject demo_entities)
  ∧ (Store.buildData demo_page 1 7 8 demo_heap).2 !! 8%positive
    = Some (CObject demo_groups)
  ∧ ∃ d,
      (Store.buildData demo_page 1 7 8 demo_heap).1 = Ret d
      ∧ demo_heap !! d = None
      ∧ holds_records (Store.buildData demo_page 1 7 8 demo_heap).2 d
          (Pure.buildData demo_page demo_table demo_entities demo_groups).
Proof.
  assert (holds_table demo_heap 1 demo_table) as Ht.
  { exists 2%positive, 3%positive, [4%positive; 5%positive; 6%positive].
    split; [reflexivity|]. split; [reflexivity|]. split; [reflexivity|].
    repeat constructor. }
  split; [exact Ht|].
  exact (proj2 (buildData_leaves_inputs_unchanged demo_page demo_heap 1 7 8)
           demo_table demo_entities demo_groups Ht eq_refl eq_refl).
Defined.

(** C9: [depthSelectorHelper] works on a copy: a call changes no cell the
    store already had, so the array it was given holds the same elements
    in the same order afterwards, and the result is a new array. *)
Theorem depthSelectorHelper_leaves_array_unchanged
    (dictionary : gmap string string) (h : heap) (array : loc)
    (element : string) :
  (∀ l c, h !! l = Some c →
     (Store.depthSelectorHelper dictionary array element h).2 !! l = Some c)
  ∧ ∀ ds : list string,
      h !! array = Some (CStrings ds) →
      (Store.depthSelectorHelper dictionary array element h).2 !! array
      = Some (CStrings ds)
      ∧ ∃ newArray,
          (Store.depthSelectorHelper dictionary array element h).1
          = Ret newArray
          ∧ h !! newArray = None
          ∧ (Store.depthSelectorHelper dictionary array element h).2
              !! newArray
            = Some (CValues (Pure.depthSelectorHelper dictionary ds element)).
Proof.
  pose proof (depthSelectorHelper_kept dictionary h array element) as Hk.
  split; [exact Hk|].
  intros ds Harr. split; [by apply Hk|].
  rewrite (depthSelectorHelper_run _ _ _ _ _ Harr). cbn.
  exists (fresh (dom h)). split; [done|].
  split; [apply not_elem_of_dom, is_fresh | apply lookup_insert_eq].
Qed.

Lemma depthSelectorHelper_leaves_array_unchanged_witness :
  demo_heap !! 9%positive = Some (CStrings ["country"; "state"; "municipality"])
  ∧ (Store.depthSelectorHelper demo_dictionary 9 "state" demo_heap).2
      !! 9%positive
    = Some (CStrings ["country"; "state"; "municipality"])
  ∧ ∃ newArray,
      (Store.depthSelectorHelper demo_dictionary 9 "state" demo_heap).1
      = Ret newArray
      ∧ demo_heap !! newArray = None
      ∧ (Store.depthSelectorHelper demo_dictionary 9 "state" demo_heap).2
          !! newArray
        = Some (CValues
                  (Pure.depthSelectorHelper demo_dictionary
                     ["country"; "state"; "municipality"] "state")).
Proof.
  split; [reflexivity|].
  exact (proj2 (depthSelectorHelper_leaves_array_unchanged demo_dictionary
                  demo_heap 9 "state")
           ["country"; "state"; "municipality"] eq_refl).
Defined.

End StoreProps.

(** ** Further properties of the script over the store *)

Module StoreExtras.

Import Store.

(** The call ends in the state of the loop: the array is new, and so
    are the distinct objects it holds, which are the records the
    value-threading [buildData] computes. *)
Lemma buildData_run_state pg (h : heap) (responseApi sm gm : loc) (t : table)
    (smv gmv : gmap string value) :
  holds_table h responseApi t →
  h !! sm = Some (CObject smv) →
  h !! gm = Some (CObject gmv) →
  ∃ d h' ls,
    Store.buildData pg responseApi sm gm h = (Ret d, h')
    ∧ is_new h d
    ∧ state h d h' ls (Pure.buildData pg t smv gmv).
Proof.
  intros (hl & dl & rls & Hr & Hhl & Hdl & Hrows) Hsm Hgm.
  unfold Store.buildData.
  set (d := fresh (dom h)).
  assert (h !! d = None) as Hdata by (apply not_elem_of_dom, is_fresh).
  set (h1 := <[d := CRefs []]> h).
  rewrite (StoreProps.bind_ret_run _ _ h h1 d) by done.
  assert (state h d h1 [] (Pure.build_item (headers t) <$> take 0 (data t)))
    as Hst1.
  { destruct (StoreProps.inv_alloc_data h []) as [_ [Hk _]]; [constructor|].
    split; [exact Hk|]. split; [apply lookup_insert_eq|].
    split; [constructor|]. split; constructor. }
  pose proof Hst1 as (Hk1 & _).
  rewrite (StoreProps.bind_ret_run _ _ _ _ _
             (StoreProps.read_table_run _ _ _ _ (Hk1 _ _ Hr))).
  rewrite (StoreProps.bind_ret_run _ _ _ _ _
             (StoreProps.read_table_run _ _ _ _ (Hk1 _ _ Hr))).
  rewrite (StoreProps.bind_ret_run _ _ _ _ _
             (StoreProps.read_refs_run _ _ _ (Hk1 _ _ Hdl))).
  destruct (StoreProps.build_items_run h d hl dl (headers t) rls (data t)
              Hdata Hhl Hdl Hrows (length rls) 0 h1 [])
    as (h2 & ls2 & Hrun2 & Hst2); [|exact Hst1|].
  { apply Forall2_length in Hrows. lia. }
  rewrite (StoreProps.bind_ret_run _ _ _ _ _ Hrun2).
  pose proof Hst2 as (_ & Hd2 & _ & _ & Hc2).
  rewrite (StoreProps.bind_ret_run _ _ _ _ _
             (StoreProps.read_refs_run _ _ _ Hd2)).
  destruct (StoreProps.enrich_loop_run pg h d sm gm smv gmv Hdata Hsm Hgm
              (length ls2) h2 ls2 _ Hst2)
    as (h3 & ls3 & Hrun3 & Hst3).
  rewrite (StoreProps.bind_ret_run _ _ _ _ _ Hrun3).
  exists d, h3, ls3. split; [done|]. split; [done|].
  unfold Pure.buildData. cbv zeta. rewrite build_items_fmap.
  rewrite length_fmap.
  apply Forall2_length in Hc2. rewrite length_fmap in Hc2.
  by rewrite <- Hc2.
Qed.

Lemma cells_elem (h : heap) (ls : list loc)
    (records : list (gmap string value)) (l : loc) :
  cells h ls records → l ∈ ls → ∃ r, h !! l = Some (CObject r).
Proof.
  intros Hc (i & Hi)%list_elem_of_lookup.
  destruct (Forall2_lookup_l _ _ _ _ _ Hc Hi) as (r & _ & Hr).
  by exists r.
Qed.

Lemma cells_kept (h h' : heap) (ls : list loc)
    (records : list (gmap string value)) :
  kept h h' → cells h ls records → cells h' ls records.
Proof.
  intros Hk Hc. eapply Forall2_impl; [exact Hc|].
  intros l r. apply Hk.
Qed.

(** X15: on a response and two lookup tables, the array that
    [buildData] returns and the record objects in it are pairwise
    distinct objects, none of which existed before the call: no record
    is shared with the response, with a lookup table or with another
    record. *)
Theorem buildData_result_is_new pg (h : heap) (responseApi sm gm : loc)
    (t : table) (smv gmv : gmap string value) :
  holds_table h responseApi t →
  h !! sm = Some (CObject smv) →
  h !! gm = Some (CObject gmv) →
  ∃ d ls,
    (Store.buildData pg responseApi sm gm h).1 = Ret d
    ∧ (Store.buildData pg responseApi sm gm h).2 !! d = Some (CRefs ls)
    ∧ NoDup (d :: ls)
    ∧ Forall (fun l => h !! l = None) (d :: ls)
    ∧ length ls = length (Pure.buildData pg t smv gmv).
Proof.
  intros Ht Hsm Hgm.
  destruct (buildData_run_state pg h responseApi sm gm t smv gmv Ht Hsm Hgm)
    as (d & h' & ls & Hrun & Hd & Hk & Hrefs & Hnd & Hnew & Hc).
  exists d, ls. rewrite Hrun. cbn [fst snd].
  split; [done|]. split; [done|]. split.
  - constructor; [|done]. intros Hin.
    destruct (cells_elem _ _ _ _ Hc Hin) as (r & Hr). congruence.
  - split; [by constructor|]. by eapply Forall2_length.
Qed.

Lemma buildData_result_is_new_witness :
  holds_table demo_heap 1 demo_table
  ∧ ∃ d ls,
      (Store.buildData demo_page 1 7 8 demo_heap).1 = Ret d
      ∧ (Store.buildData demo_page 1 7 8 demo_heap).2 !! d = Some (CRefs ls)
      ∧ NoDup (d :: ls)
      ∧ Forall (fun l => demo_heap !! l = None) (d :: ls)
      ∧ length ls
        = length (Pure.buildData demo_page demo_table demo_entities
                    demo_groups).
Proof.
  assert (holds_table demo_heap 1 demo_table) as Ht.
  { exists 2%positive, 3%positive, [4%positive; 5%positive; 6%positive].
    split; [reflexivity|]. split; [reflexivity|]. split; [reflexivity|].
    repeat constructor. }
  refine (conj Ht _).
  exact (buildData_result_is_new demo_page demo_heap 1 7 8 demo_table
           demo_entities demo_groups Ht eq_refl eq_refl).
Defined.

(** X16: calling [buildData] a second time on the same response and
    lookup tables gives a second array, with objects of its own, that
    holds the same records; the array and the records of the first call
    are as they were. *)
Theorem buildData_twice_separate pg (h : heap) (responseApi sm gm : loc)
    (t : table) (smv gmv : gmap string value) :
  holds_table h responseApi t →
  h !! sm = Some (CObject smv) →
  h !! gm = Some (CObject gmv) →
  ∃ d1 h1 ls1 d2 h2 ls2,
    Store.buildData pg responseApi sm gm h = (Ret d1, h1)
    ∧ Store.buildData pg responseApi sm gm h1 = (Ret d2, h2)
    ∧ d1 ≠ d2
    ∧ (∀ l, l ∈ ls1 → l ∉ ls2)
    ∧ h2 !! d1 = Some (CRefs ls1)
    ∧ h2 !! d2 = Some (CRefs ls2)
    ∧ cells h2 ls1 (Pure.buildData pg t smv gmv)
    ∧ cells h2 ls2 (Pure.buildData pg t smv gmv).
Proof.
  intros Ht Hsm Hgm.
  destruct (buildData_run_state pg h responseApi sm gm t smv gmv Ht Hsm Hgm)
    as (d1 & h1 & ls1 & Hrun1 & Hd1 & Hk1 & Hrefs1 & Hnd1 & Hnew1 & Hc1).
  destruct (buildData_run_state pg h1 responseApi sm gm t smv gmv)
    as (d2 & h2 & ls2 & Hrun2 & Hd2 & Hk2 & Hrefs2 & Hnd2 & Hnew2 & Hc2).
  { by eapply StoreProps.holds_table_kept. }
  { by apply Hk1. }
  { by apply Hk1. }
  exists d1, h1, ls1, d2, h2, ls2.
  split; [done|]. split; [done|]. split.
  { intros ->. unfold is_new in Hd2. congruence. }
  split.
  { intros l Hin1 Hin2.
    destruct (cells_elem _ _ _ _ Hc1 Hin1) as (r & Hr).
    rewrite Forall_forall in Hnew2. specialize (Hnew2 l Hin2).
    unfold is_new in Hnew2. congruence. }
  split; [by apply Hk2|]. split; [done|].
  split; [by eapply cells_kept | done].
Qed.

Lemma buildData_twice_separate_witness :
  holds_table demo_heap 1 demo_table
  ∧ ∃ d1 h1 ls1 d2 h2 ls2,
      Store.buildData demo_page 1 7 8 demo_heap = (Ret d1, h1)
      ∧ Store.buildData demo_page 1 7 8 h1 = (Ret d2, h2)
      ∧ d1 ≠ d2
      ∧ (∀ l, l ∈ ls1 → l ∉ ls2)
      ∧ h2 !! d1 = Some (CRefs ls1)
      ∧ h2 !! d2 = Some (CRefs ls2)
      ∧ cells h2 ls1
          (Pure.buildData demo_page demo_table demo_entities demo_groups)
      ∧ cells h2 ls2
          (Pure.buildData demo_page demo_table demo_entities demo_groups).
Proof.
  assert (holds_table demo_heap 1 demo_table) as Ht.
  { exists 2%positive, 3%positive, [4%positive; 5%positive; 6%positive].
    split; [reflexivity|]. split; [reflexivity|]. split; [reflexivity|].
    repeat constructor. }
  refine (conj Ht _).
  exact (buildData_twice_separate demo_page demo_heap 1 7 8 demo_table
           demo_entities demo_groups Ht eq_refl eq_refl).
Defined.

End StoreExtras.
